(** * simple-server: the segment trie and the method router

    A shallow embedding of [src/routing/routeTrie.ts] and
    [src/routing/router.ts], and the properties of the routing core.

    - Objects.  The trie nodes of the source are mutable objects that
      point at one another ([parent], [children], [dynamicSegment]).
      They are records held in a store, a list, and a reference is an
      index into it; [new] appends to the store and a field assignment
      alters the record in place.  The loops of [RouteTrie.insert] and
      [RouteTrie.find] walk the store with a [current] reference, part
      by part, as the source does.  A reference in the source always
      points at a live object: [wf_store] says so of a store, every
      router the constructor and [map] can produce is well formed, and
      on such stores the total lookup [h !!! l] never reads its
      default.
    - Exceptions.  [insert] and [map] return the state they leave
      behind together with a completion, [Return] or [Throw]: what was
      assigned before a [throw] stays assigned.
    - Strings.  A string is its sequence of bytes.  The separators the
      router looks for ([/], [:], [*]) are ASCII, so splitting bytes
      and splitting UTF-16 units agree; [toUpperCase] is embedded on
      ASCII letters only.
    - Dictionaries.  [children] and [routeMethodMap] are [Map]s and
      [params] is an object used as a dictionary from capture names to
      request parts; all three are finite maps keyed by strings.
    - Around the core.  The getter [fullPath], [splitQueryParamPart] of
      [src/logging/logger.ts] and the round of the loop of
      [SimpleServer.start] from the url to the arguments of the handler
      are embedded as well.  Handlers, middleware and the request object
      are values the loop passes on; they are not looked into. *)

From Stdlib Require Import Ascii.
From stdpp Require Import base strings gmap list.

(** ** JavaScript string primitives used by the router *)

Module Js.

(** [s.split(sep)] for a one-character separator: the pieces between
    the separators, empty pieces included. *)
Fixpoint split (sep : ascii) (s : string) : list string :=
  match s with
  | EmptyString => [EmptyString]
  | String c s' =>
      if Ascii.eqb c sep then EmptyString :: split sep s'
      else match split sep s' with
           | [] => [String c EmptyString]
           | w :: ws => String c w :: ws
           end
  end.

(** Truthiness of a string: every string but the empty one. *)
Definition truthy (s : string) : bool :=
  match s with EmptyString => false | String _ _ => true end.

(** [s.startsWith(c)] for a one-character prefix. *)
Definition startsWith (c : ascii) (s : string) : bool :=
  match s with EmptyString => false | String a _ => Ascii.eqb a c end.

(** [s.replace(c, '')] for a one-character pattern: the first
    occurrence of [c] is removed, later ones stay. *)
Fixpoint replace (c : ascii) (s : string) : string :=
  match s with
  | EmptyString => EmptyString
  | String a s' => if Ascii.eqb a c then s' else String a (replace c s')
  end.

(** [s[0] !== c]: [s[0]] is [undefined] on the empty string. *)
Definition head_differs (c : ascii) (s : string) : bool :=
  match s with EmptyString => true | String a _ => negb (Ascii.eqb a c) end.

(** [toUpperCase] on the ASCII range, where HTTP method tokens live:
    the letters a-z move to A-Z, every other character stays. *)
Definition upper_ascii (a : ascii) : ascii :=
  let n := nat_of_ascii a in
  if (97 <=? n)%nat && (n <=? 122)%nat then ascii_of_nat (n - 32) else a.

Fixpoint toUpperCase (s : string) : string :=
  match s with
  | EmptyString => EmptyString
  | String a s' => String (upper_ascii a) (toUpperCase s')
  end.

(** [s.indexOf(c)] for a one-character pattern: the position of the
    first occurrence, [-1] when there is none. *)
Fixpoint indexOf (c : ascii) (s : string) : Z :=
  match s with
  | EmptyString => (-1)%Z
  | String a s' =>
      if Ascii.eqb a c then 0%Z
      else let i := indexOf c s' in
           if (i =? -1)%Z then (-1)%Z else (i + 1)%Z
  end.

(** [s.substr(start, length)]: a negative start counts from the end,
    and the length is cut to what the string holds. *)
Definition substr (s : string) (start length : Z) : string :=
  let size := Z.of_nat (String.length s) in
  let from :=
    if (start <? 0)%Z then Z.max (size + start) 0 else Z.min start size in
  let len := Z.min (Z.max length 0) (size - from) in
  String.substring (Z.to_nat from) (Z.to_nat len) s.

End Js.

(** ** Errors and completions *)

(** The three [Error]s the router throws.  Each one carries the values
    that the source interpolates into its message. *)
Inductive RouteError : Type :=
  | ConflictingDynamicSegment (path existing : string)
  | DuplicateRoute (path : string)
  | UnsupportedMethod (method : string).

Definition message (e : RouteError) : string :=
  match e with
  | ConflictingDynamicSegment path existing =>
      "Cannot create route " +:+ path
        +:+ ". Route already has a dynamic segment with " +:+ existing +:+ "."
  | DuplicateRoute path =>
      "Value already exists at " +:+ path +:+ ". A path can only map to one value."
  | UnsupportedMethod method =>
      "HTTP Method '" +:+ method +:+ "' is not currently supported"
  end.

(** How a call ends: it returns, or it throws. *)
Inductive completion (A : Type) : Type :=
  | Return (a : A)
  | Throw (e : RouteError).
Arguments Return {A} a.
Arguments Throw {A} e.

#[global] Instance RouteError_eq_dec : EqDecision RouteError.
Proof. solve_decision. Defined.

(** The error an insertion would throw had the path been written
    [path]: only the path named in the message changes. *)
Definition retarget (path : string) (e : RouteError) : RouteError :=
  match e with
  | ConflictingDynamicSegment _ existing => ConflictingDynamicSegment path existing
  | DuplicateRoute _ => DuplicateRoute path
  | UnsupportedMethod method => UnsupportedMethod method
  end.

Definition retarget_completion {A} (path : string) (c : completion A) : completion A :=
  match c with
  | Return a => Return a
  | Throw e => Throw (retarget path e)
  end.

(** ** Trie nodes *)

(** A reference to a node: its index in the store. *)
Abbreviation loc := nat.

Module RouteTrieNode.

Record t (T : Type) : Type := mk {
  path : string;
  parent : option loc;
  children : gmap string loc;
  dynamicSegment : option loc;
  value : option T;
}.
Arguments mk {T} _ _ _ _ _.
Arguments path {T} _.
Arguments parent {T} _.
Arguments children {T} _.
Arguments dynamicSegment {T} _.
Arguments value {T} _.

(** [new RouteTrieNode(path, parent, value)]. *)
Definition new {T} (path : string) (parent : option loc) (value : option T) : t T :=
  mk path parent ∅ None value.

(** Field assignments. *)
Definition set_dynamicSegment {T} (d : loc) (n : t T) : t T :=
  mk (path n) (parent n) (children n) (Some d) (value n).

Definition set_child {T} (part : string) (c : loc) (n : t T) : t T :=
  mk (path n) (parent n) (<[part := c]> (children n)) (dynamicSegment n) (value n).

Definition set_value {T} (v : option T) (n : t T) : t T :=
  mk (path n) (parent n) (children n) (dynamicSegment n) v.

#[global] Instance inhabited {T} : Inhabited (t T) := populate (new "" None None).

End RouteTrieNode.

(** ** The segment trie *)

Section RouteTrie.

Context {T : Type}.

(** JavaScript truthiness of a payload of type [T].  A missing value
    ([undefined]) is [None] and is never truthy. *)
Variable truthy : T → bool.

Definition truthy_value (v : option T) : bool :=
  match v with Some x => truthy x | None => false end.

Abbreviation node := (RouteTrieNode.t T).

(** The objects reachable from a trie, and the reference to its root. *)
Record RouteTrie : Type := mkTrie {
  store : list node;
  root : loc;
}.

(** [new RouteTrie()]: the root has no path and no parent. *)
Definition new_RouteTrie : RouteTrie :=
  mkTrie [RouteTrieNode.new "" None None] 0.

Definition isRoot (path : string) : bool :=
  bool_decide (String.length path = 0) || bool_decide (path = "/").

Definition isDynamicPart (part : string) : bool :=
  Js.startsWith ":" part || bool_decide (part = "*").

(** [path.split('/').filter(part => part)]. *)
Definition parts_of (path : string) : list string :=
  List.filter Js.truthy (Js.split "/" path).

(** The body of the loop of [insert], for the parts that remain.  It
    returns the store as the loop leaves it, and either the node
    reached or the error thrown on the way. *)
Fixpoint insert_walk (path : string) (parts : list string)
    (h : list node) (current : loc) : list node * (RouteError + loc) :=
  match parts with
  | [] => (h, inr current)
  | part :: rest =>
      if isDynamicPart part then
        let dynamicPart := Js.replace ":" part in
        match RouteTrieNode.dynamicSegment (h !!! current) with
        | Some d =>
            if bool_decide (RouteTrieNode.path (h !!! d) ≠ dynamicPart) then
              (h, inl (ConflictingDynamicSegment path (RouteTrieNode.path (h !!! d))))
            else insert_walk path rest h d
        | None =>
            let next := length h in
            let h1 := h ++ [RouteTrieNode.new dynamicPart (Some current) None] in
            let h2 := alter (RouteTrieNode.set_dynamicSegment next) current h1 in
            insert_walk path rest h2 next
        end
      else
        match RouteTrieNode.children (h !!! current) !! part with
        | Some c => insert_walk path rest h c
        | None =>
            let next := length h in
            let h1 := h ++ [RouteTrieNode.new part (Some current) None] in
            let h2 := alter (RouteTrieNode.set_child part next) current h1 in
            insert_walk path rest h2 next
        end
  end.

Definition insert (path : string) (value : option T) (t : RouteTrie)
    : RouteTrie * completion unit :=
  let path :=
    if negb (Js.truthy path) || bool_decide (String.length path = 0)
       || Js.head_differs "/" path
    then "/" +:+ path else path in
  let parts := parts_of path in
  match insert_walk path parts (store t) (root t) with
  | (h, inl e) => (mkTrie h (root t), Throw e)
  | (h, inr current) =>
      if truthy_value (RouteTrieNode.value (h !!! current)) then
        (mkTrie h (root t), Throw (DuplicateRoute path))
      else
        (mkTrie (alter (RouteTrieNode.set_value value) current h) (root t),
         Return tt)
  end.

(** What [find] returns when it does not return [null]. *)
Record RouteTrieFindResult : Type := mkFound {
  node_of : loc;
  params : option (gmap string string);
}.

(** The loop of [find]; [None] is the early [return null]. *)
Fixpoint find_walk (parts : list string) (h : list node) (current : loc)
    (params : gmap string string) : option (loc * gmap string string) :=
  match parts with
  | [] => Some (current, params)
  | part :: rest =>
      match RouteTrieNode.children (h !!! current) !! part with
      | Some c => find_walk rest h c params
      | None =>
          match RouteTrieNode.dynamicSegment (h !!! current) with
          | Some d =>
              find_walk rest h d (<[RouteTrieNode.path (h !!! d) := part]> params)
          | None => None
          end
      end
  end.

Definition find (path : string) (t : RouteTrie) : option RouteTrieFindResult :=
  if isRoot path then Some (mkFound (root t) None)
  else
    let path := if Js.head_differs "/" path then "/" +:+ path else path in
    let parts := parts_of path in
    match find_walk parts (store t) (root t) ∅ with
    | Some (current, params) => Some (mkFound current (Some params))
    | None => None
    end.

End RouteTrie.

Arguments RouteTrie T : clear implicits.
Arguments RouteTrieFindResult : clear implicits.
Arguments new_RouteTrie {T}.

(** ** The method router *)

(** The string enum [HttpMethod]: its keys with their values. *)
Definition HttpMethod : list (string * string) :=
  [("GET", "GET"); ("PUT", "PUT"); ("POST", "POST"); ("DELETE", "DELETE");
   ("HEAD", "HEAD"); ("PATCH", "PATCH"); ("OPTIONS", "OPTIONS");
   ("TRACE", "TRACE"); ("CONNECT", "CONNECT")].

(** [RouteHandler<T>] is a function type: its values are opaque to the
    router, and every function is truthy. *)
Definition handler_truthy {RouteHandler : Type} (_ : RouteHandler) : bool := true.

Abbreviation Params := (gmap string string).

Record RouterFindResult (RouteHandler : Type) : Type := mkRouterFound {
  handler : RouteHandler;
  pathParams : option Params;
}.
Arguments mkRouterFound {RouteHandler} _ _.
Arguments handler {RouteHandler} _.
Arguments pathParams {RouteHandler} _.

Module Router.

Section Defs.

Variable RouteHandler : Type.

Record t : Type := mk {
  routeMethodMap : gmap string (RouteTrie RouteHandler);
}.

(** [new Router()]: one empty trie for every key of the enum. *)
Definition new : t :=
  mk (foldl (λ m method, <[method := new_RouteTrie]> m) ∅ (HttpMethod.*1)).

Definition map (method path : string) (handler : RouteHandler) (r : t)
    : t * completion unit :=
  let httpMethod := Js.toUpperCase method in
  match routeMethodMap r !! httpMethod with
  | None => (r, Throw (UnsupportedMethod method))
  | Some trie =>
      let '(trie', out) := insert handler_truthy path (Some handler) trie in
      (mk (<[httpMethod := trie']> (routeMethodMap r)), out)
  end.

Definition find (method path : string) (r : t)
    : completion (option (RouterFindResult RouteHandler)) :=
  let httpMethod := Js.toUpperCase method in
  match routeMethodMap r !! httpMethod with
  | None => Throw (UnsupportedMethod method)
  | Some trie =>
      match find path trie with
      | None => Return None
      | Some result =>
          match RouteTrieNode.value (store trie !!! node_of result) with
          | Some v =>
              if handler_truthy v
              then Return (Some (mkRouterFound v (params result)))
              else Return None
          | None => Return None
          end
      end
  end.

End Defs.

Arguments mk {RouteHandler} _.
Arguments routeMethodMap {RouteHandler} _.
Arguments new {RouteHandler}.
Arguments map {RouteHandler} _ _ _ _.
Arguments find {RouteHandler} _ _ _.

End Router.


(** ** Well-formed stores *)

Section Invariants.

Context {T : Type}.
Variable truthy : T → bool.

Abbreviation node := (RouteTrieNode.t T).

(** Every reference held by a node points into the store, and the
    keys of [children] are literal parts: [insert] files the dynamic
    ones under [dynamicSegment]. *)
Definition node_ok (bound : nat) (n : node) : Prop :=
  map_Forall (λ k c, c < bound ∧ isDynamicPart k = false)
             (RouteTrieNode.children n)
  ∧ match RouteTrieNode.dynamicSegment n with
    | Some d => d < bound
    | None => True
    end.

Definition wf_store (h : list node) : Prop :=
  Forall (node_ok (length h)) h.

Definition wf_trie (t : RouteTrie T) : Prop :=
  root t < length (store t) ∧ wf_store (store t).

#[global] Instance node_ok_dec bound n : Decision (node_ok bound n).
Proof.
  unfold node_ok. destruct (RouteTrieNode.dynamicSegment n); apply _.
Defined.

#[global] Instance wf_store_dec h : Decision (wf_store h).
Proof. unfold wf_store. apply _. Defined.

#[global] Instance wf_trie_dec t : Decision (wf_trie t).
Proof. unfold wf_trie. apply _. Defined.

(** A node as [new RouteTrieNode(path, parent)] leaves it. *)
Definition blank (n : node) : Prop :=
  RouteTrieNode.children n = ∅ ∧ RouteTrieNode.dynamicSegment n = None
  ∧ RouteTrieNode.value n = None.

(** [grows h h']: what a store keeps while routes are added.  Nodes
    stay where they are and keep their path, their literal children,
    their dynamic child and any truthy value. *)
Definition grows (h h' : list node) : Prop :=
  length h ≤ length h'
  ∧ ∀ l, l < length h →
      RouteTrieNode.path (h' !!! l) = RouteTrieNode.path (h !!! l)
      ∧ RouteTrieNode.children (h !!! l) ⊆ RouteTrieNode.children (h' !!! l)
      ∧ (∀ d, RouteTrieNode.dynamicSegment (h !!! l) = Some d →
              RouteTrieNode.dynamicSegment (h' !!! l) = Some d)
      ∧ (truthy_value truthy (RouteTrieNode.value (h !!! l)) = true →
         RouteTrieNode.value (h' !!! l) = RouteTrieNode.value (h !!! l)).

(** The node a path names in a store, found the way [insert] walks:
    a dynamic part follows [dynamicSegment] when the capture names
    agree, a literal part follows [children].  Nothing is created. *)
Fixpoint locate (parts : list string) (h : list node) (current : loc)
    : option loc :=
  match parts with
  | [] => Some current
  | part :: rest =>
      if isDynamicPart part then
        match RouteTrieNode.dynamicSegment (h !!! current) with
        | Some d =>
            if bool_decide (RouteTrieNode.path (h !!! d) = Js.replace ":" part)
            then locate rest h d else None
        | None => None
        end
      else
        match RouteTrieNode.children (h !!! current) !! part with
        | Some c => locate rest h c
        | None => None
        end
  end.

(** *** Linking a new node under [cur] *)

(** Both creating branches of [insert] push a blank node and store
    its reference in a field of [cur]. *)
Definition link (f : node → node) (name : string) (h : list node) (cur : loc) : list node :=
  alter f cur (h ++ [RouteTrieNode.new name (Some cur) None]).

(** [shadowed route reqs h cur]: somewhere along the route a dynamic
    part meets a request part that is also the key of a literal child
    of the node reached so far; [find] then takes the literal child. *)
Fixpoint shadowed (route reqs : list string) (h : list node) (cur : loc)
    : bool :=
  match route, reqs with
  | r :: route', q :: reqs' =>
      if isDynamicPart r then
        match RouteTrieNode.children (h !!! cur) !! q with
        | Some _ => true
        | None =>
            match RouteTrieNode.dynamicSegment (h !!! cur) with
            | Some d => shadowed route' reqs' h d
            | None => false
            end
        end
      else
        match RouteTrieNode.children (h !!! cur) !! r with
        | Some c => shadowed route' reqs' h c
        | None => false
        end
  | _, _ => false
  end.

End Invariants.

(** The path as [insert] and [find] read it: with its leading slash. *)
Definition slashed (path : string) : string :=
  if Js.head_differs "/" path then "/" +:+ path else path.

(** A request matches a route part by part: a literal part matches
    itself, a dynamic part matches any request part. *)
Definition part_matches (r q : string) : Prop :=
  isDynamicPart r = true ∨ r = q.

Definition segments_match (route reqs : list string) : Prop :=
  Forall2 part_matches route reqs.

#[global] Instance part_matches_dec r q : Decision (part_matches r q).
Proof. unfold part_matches. apply _. Defined.

#[global] Instance segments_match_dec route reqs : Decision (segments_match route reqs).
Proof. unfold segments_match. apply _. Defined.

(** The parameters a request binds against a route, on top of [acc]:
    each dynamic part binds its capture name to the request part at its
    position, a later binding of a name replacing an earlier one. *)
Fixpoint captures (route reqs : list string) (acc : gmap string string)
    : gmap string string :=
  match route, reqs with
  | r :: route', q :: reqs' =>
      captures route' reqs'
        (if isDynamicPart r then <[Js.replace ":" r := q]> acc else acc)
  | _, _ => acc
  end.

(** ** Router states *)

Section RouterStates.

Context {RouteHandler : Type}.

Implicit Types (r : Router.t RouteHandler) (t : RouteTrie RouteHandler).

(** The methods a router answers for: the keys of the enum. *)
Definition supported (method : string) : Prop :=
  Js.toUpperCase method ∈ HttpMethod.*1.

#[global] Instance supported_dec method : Decision (supported method).
Proof. unfold supported. apply _. Defined.

(** The states a router can be in: a trie for each key of the enum
    and for nothing else, each trie well formed. *)
Definition wf_router r : Prop :=
  dom (Router.routeMethodMap r) = list_to_set (HttpMethod.*1)
  ∧ map_Forall (λ _ t, wf_trie t) (Router.routeMethodMap r).

#[global] Instance wf_router_dec r : Decision (wf_router r).
Proof. unfold wf_router. apply _. Defined.

Definition router_grows r r' : Prop :=
  ∀ m t, Router.routeMethodMap r !! m = Some t →
    ∃ t', Router.routeMethodMap r' !! m = Some t'
          ∧ root t' = root t
          ∧ grows handler_truthy (store t) (store t').

(** Registering routes one after the other, the caller going on
    after a registration that throws. *)
Definition map_all (routes : list (string * string * RouteHandler)) r
    : Router.t RouteHandler :=
  foldl (λ r route, (Router.map route.1.1 route.1.2 route.2 r).1) r routes.


End RouterStates.

(** ** The tree of nodes *)

Section Tree.

Context {T : Type}.
Variable truthy : T → bool.

Abbreviation nodeT := (RouteTrieNode.t T).

(** The getter [fullPath] of a node: the full path of the parent, or
    the empty string when there is none, then [/] and the node's own
    path.  The getter calls itself on the parent; [fuel] bounds how
    many calls may nest, and [None] says that it did not suffice. *)
Fixpoint fullPath (fuel : nat) (h : list nodeT) (l : loc) : option string :=
  match fuel with
  | 0 => None
  | S fuel =>
      match RouteTrieNode.parent (h !!! l) with
      | None => Some ("" +:+ "/" +:+ RouteTrieNode.path (h !!! l))
      | Some p =>
          match fullPath fuel h p with
          | Some s => Some (s +:+ "/" +:+ RouteTrieNode.path (h !!! l))
          | None => None
          end
      end
  end.

(** What the links of the node at [l] look like in a trie: a literal
    child is a later node, has [l] for parent and its key for path, and
    is not the dynamic child; the dynamic child is a later node with
    [l] for parent; and the parent is an earlier node. *)
Definition links_ok (h : list nodeT) (l : loc) : Prop :=
  (∀ k c, RouteTrieNode.children (h !!! l) !! k = Some c →
     l < c ∧ RouteTrieNode.parent (h !!! c) = Some l
     ∧ RouteTrieNode.path (h !!! c) = k
     ∧ RouteTrieNode.dynamicSegment (h !!! l) ≠ Some c)
  ∧ (∀ d, RouteTrieNode.dynamicSegment (h !!! l) = Some d →
       l < d ∧ RouteTrieNode.parent (h !!! d) = Some l)
  ∧ (∀ p, RouteTrieNode.parent (h !!! l) = Some p → p < l).

Definition tree_store (h : list nodeT) : Prop :=
  ∀ l, l < length h → links_ok h l.

(** A trie: a well-formed store that is a tree, under a root without
    parent and without path. *)
Definition tree_trie (t : RouteTrie T) : Prop :=
  wf_trie t ∧ tree_store (store t)
  ∧ RouteTrieNode.parent (store t !!! root t) = None
  ∧ RouteTrieNode.path (store t !!! root t) = "".

(** Insertions one after the other, the caller going on after one that
    throws. *)
Definition insert_all (routes : list (string * option T)) (t : RouteTrie T)
    : RouteTrie T :=
  foldl (λ t route, (insert truthy route.1 route.2 t).1) t routes.

End Tree.

(** The path [insert] gives the node of a part: the capture name of a
    dynamic part, the part itself otherwise. *)
Definition segment_name (part : string) : string :=
  if isDynamicPart part then Js.replace ":" part else part.

(** The names of nodes written as a path: each one behind a [/]. *)
Definition path_of_names (names : list string) : string :=
  foldr (λ name rest, "/" +:+ name +:+ rest) "" names.

Section RouterTrees.

Context {RouteHandler : Type}.

Implicit Types (r : Router.t RouteHandler).


End RouterTrees.

(** ** The query string *)

Module Parse.

Record parts : Type := mk {
  path : string;
  qsp : option string;
}.

(** [splitQueryParamPart(path)]: the path is cut at its first [?]. *)
Definition splitQueryParamPart (path : string) : parts :=
  let qspIndex := Js.indexOf "?" path in
  if (qspIndex =? -1)%Z then mk path None
  else mk (Js.substr path 0 qspIndex)
          (Some (Js.substr path (qspIndex + 1) (Z.of_nat (String.length path)))).

(** The url that was cut: the path, then [?] and the query string when
    there is one. *)
Definition whole (p : parts) : string :=
  match qsp p with
  | None => path p
  | Some q => path p +:+ "?" +:+ q
  end.

End Parse.

(** ** The server *)

Module SimpleServer.

Section Defs.

Variable RouteHandler : Type.

(** [RoutingParams].  [queryParams] is [new URLSearchParams(qsp)], an
    object of the platform: it is kept as the argument it is made
    from. *)
Record RoutingParams : Type := mkParams {
  queryParams : option string;
  pathParams : Params;
}.

(** What one round of the loop of [start] hands over: the handler to
    call, [None] standing for [this.defaultHandler], and the [params]
    of its arguments. *)
Record Dispatch : Type := mkDispatch {
  handler : option RouteHandler;
  params : RoutingParams;
}.

(** [createRoutingParams(queryParams, pathParams = {})]. *)
Definition createRoutingParams (queryParams : option string)
    (pathParams : option Params) : RoutingParams :=
  mkParams queryParams (default ∅ pathParams).

(** [route(method, path, handler)]. *)
Definition route (method path : string) (handler : RouteHandler)
    (router : Router.t RouteHandler) : Router.t RouteHandler * completion unit :=
  Router.map method path handler router.

(** The round of the loop of [start] for a request with [method] and
    [url], from [splitQueryParamPart] to the arguments of the handler.
    A [Throw] is caught by the loop and handed to the error handler. *)
Definition dispatch (method url : string) (router : Router.t RouteHandler)
    : completion Dispatch :=
  let segments := Parse.splitQueryParamPart url in
  match Router.find method (Parse.path segments) router with
  | Throw e => Throw e
  | Return result =>
      let '(handler, pathParams) :=
        match result with
        | Some (mkRouterFound found pathParams) =>
            (Some found, default ∅ pathParams)
        | None => (None, ∅)
        end in
      Return (mkDispatch handler
                (createRoutingParams (Parse.qsp segments) (Some pathParams)))
  end.

End Defs.

Arguments mkDispatch {RouteHandler} _ _.
Arguments handler {RouteHandler} _.
Arguments params {RouteHandler} _.
Arguments route {RouteHandler} _ _ _ _.
Arguments dispatch {RouteHandler} _ _ _.

End SimpleServer.

(** ** Some routers and tries *)

(** Handlers are told apart by a name. *)
Definition posts_id_router : Router.t string :=
  (Router.map "GET" "/posts/:id" "first" Router.new).1.

Definition posts_id_trie : RouteTrie string :=
  (insert handler_truthy "/posts/:id" (Some "first") new_RouteTrie).1.

Definition a_b_router : Router.t string :=
  (Router.map "GET" "/a/b" "first" Router.new).1.

Definition a_b_trie : RouteTrie string :=
  (insert handler_truthy "/a/b" (Some "first") new_RouteTrie).1.

Definition valueless_trie : RouteTrie string :=
  (insert handler_truthy "/a/b" None new_RouteTrie).1.

(** A router on whose GET trie [insert('/a/b')] was called directly. *)
Definition valueless_router : Router.t string :=
  Router.mk (<["GET" := valueless_trie]> (Router.routeMethodMap Router.new)).

Definition root_router : Router.t string :=
  (Router.map "GET" "/" "root" Router.new).1.



Definition posts_show_router : Router.t string :=
  map_all [("GET", "/posts/top/new", "new")]
    (Router.map "GET" "/posts/:post_id" "show" Router.new).1.

(** ** Store lemmas *)

Section StoreLemmas.

Context {T : Type}.
Variable truthy : T → bool.

Abbreviation nodeT := (RouteTrieNode.t T).
Implicit Types (h : list nodeT) (n : nodeT) (l cur d c : loc).

Lemma wf_store_lookup h l :
  wf_store h → l < length h → node_ok (length h) (h !!! l).
Proof.
  unfold wf_store. rewrite Forall_lookup. intros Hwf Hl.
  apply (Hwf l). by apply list_lookup_lookup_total_lt.
Qed.

Lemma wf_store_child h cur k c :
  wf_store h → cur < length h →
  RouteTrieNode.children (h !!! cur) !! k = Some c →
  c < length h ∧ isDynamicPart k = false.
Proof.
  intros Hwf Hcur Hk.
  destruct (wf_store_lookup h cur Hwf Hcur) as [Hch _].
  exact (Hch k c Hk).
Qed.

Lemma wf_store_dynamic h cur d :
  wf_store h → cur < length h →
  RouteTrieNode.dynamicSegment (h !!! cur) = Some d → d < length h.
Proof.
  intros Hwf Hcur Hd.
  destruct (wf_store_lookup h cur Hwf Hcur) as [_ Hdyn].
  by rewrite Hd in Hdyn.
Qed.

Lemma node_ok_mono b b' n : b ≤ b' → node_ok b n → node_ok b' n.
Proof.
  intros Hb [Hch Hdyn]. split.
  - intros k c Hk. destruct (Hch k c Hk). split; [lia | done].
  - destruct (RouteTrieNode.dynamicSegment n); simpl in *; [lia | done].
Qed.

Lemma length_link f name h cur : length (link f name h cur) = S (length h).
Proof. unfold link. rewrite length_alter, length_app. simpl. lia. Qed.

Lemma link_lookup_new f name h cur :
  cur < length h →
  link f name h cur !!! length h = RouteTrieNode.new name (Some cur) None.
Proof.
  intros Hcur. unfold link.
  rewrite list_lookup_total_alter_ne by lia.
  apply list_lookup_total_correct.
  rewrite lookup_app_r by lia. by rewrite Nat.sub_diag.
Qed.

Lemma link_lookup_cur f name h cur :
  cur < length h → link f name h cur !!! cur = f (h !!! cur).
Proof.
  intros Hcur. unfold link.
  rewrite list_lookup_total_alter_eq by (rewrite length_app; lia).
  by rewrite lookup_total_app_l.
Qed.

Lemma link_lookup_other f name h cur l :
  l < length h → l ≠ cur → link f name h cur !!! l = h !!! l.
Proof.
  intros Hl Hne. unfold link.
  rewrite list_lookup_total_alter_ne by done.
  by rewrite lookup_total_app_l.
Qed.

End StoreLemmas.

(** ** The loop of [insert] *)

Section InsertWalk.

Context {T : Type}.
Variable truthy : T → bool.

Abbreviation nodeI := (RouteTrieNode.t T).
Implicit Types (h : list nodeI) (n : nodeI) (l cur d c : loc).

Lemma wf_store_intro h :
  (∀ l, l < length h → node_ok (length h) (h !!! l)) → wf_store h.
Proof. intros H. unfold wf_store. rewrite Forall_lookup_total. exact H. Qed.

Lemma node_ok_new b name p : node_ok b (RouteTrieNode.new (T:=T) name p None).
Proof. split; simpl; [apply map_Forall_empty | done]. Qed.

Lemma wf_link_dyn name h cur :
  wf_store h → cur < length h →
  wf_store (link (RouteTrieNode.set_dynamicSegment (length h)) name h cur).
Proof.
  intros Hwf Hcur. apply wf_store_intro. intros l.
  rewrite length_link. intros Hl.
  destruct (decide (l = length h)) as [->|Hnew].
  { rewrite link_lookup_new by done. apply node_ok_new. }
  destruct (decide (l = cur)) as [->|Hne].
  - rewrite link_lookup_cur by done.
    destruct (wf_store_lookup h cur Hwf Hcur) as [Hch _].
    split; simpl; [|lia].
    intros k c Hk. destruct (Hch k c Hk). split; [lia | done].
  - rewrite link_lookup_other by lia.
    eapply node_ok_mono; [|apply wf_store_lookup; [done | lia]]. lia.
Qed.

Lemma wf_link_child part name h cur :
  wf_store h → cur < length h → isDynamicPart part = false →
  wf_store (link (RouteTrieNode.set_child part (length h)) name h cur).
Proof.
  intros Hwf Hcur Hpart. apply wf_store_intro. intros l.
  rewrite length_link. intros Hl.
  destruct (decide (l = length h)) as [->|Hnew].
  { rewrite link_lookup_new by done. apply node_ok_new. }
  destruct (decide (l = cur)) as [->|Hne].
  - rewrite link_lookup_cur by done.
    destruct (wf_store_lookup h cur Hwf Hcur) as [Hch Hdyn].
    split; simpl.
    + apply map_Forall_insert_2; [split; [lia | done]|].
      intros k c Hk. destruct (Hch k c Hk). split; [lia | done].
    + destruct (RouteTrieNode.dynamicSegment (h !!! cur)); [lia | done].
  - rewrite link_lookup_other by lia.
    eapply node_ok_mono; [|apply wf_store_lookup; [done | lia]]. lia.
Qed.

Lemma grows_refl h : grows truthy h h.
Proof. split; [done|]. intros l _. repeat split; auto. Qed.

Lemma grows_trans h1 h2 h3 :
  grows truthy h1 h2 → grows truthy h2 h3 → grows truthy h1 h3.
Proof.
  intros [Hlen12 H12] [Hlen23 H23]. split; [lia|].
  intros l Hl.
  destruct (H12 l Hl) as (Hp & Hc & Hd & Hv).
  destruct (H23 l ltac:(lia)) as (Hp' & Hc' & Hd' & Hv').
  repeat split.
  - congruence.
  - by etrans.
  - auto.
  - intros Htr. rewrite <- (Hv Htr). apply Hv'. by rewrite (Hv Htr).
Qed.

Lemma grows_link f name h cur :
  cur < length h →
  RouteTrieNode.path (f (h !!! cur)) = RouteTrieNode.path (h !!! cur) →
  RouteTrieNode.children (h !!! cur) ⊆ RouteTrieNode.children (f (h !!! cur)) →
  (∀ d, RouteTrieNode.dynamicSegment (h !!! cur) = Some d →
        RouteTrieNode.dynamicSegment (f (h !!! cur)) = Some d) →
  RouteTrieNode.value (f (h !!! cur)) = RouteTrieNode.value (h !!! cur) →
  grows truthy h (link f name h cur).
Proof.
  intros Hcur Hp Hc Hd Hv. split; [rewrite length_link; lia|].
  intros l Hl. destruct (decide (l = cur)) as [->|Hne].
  - rewrite link_lookup_cur by done. repeat split; auto.
  - rewrite link_lookup_other by done. repeat split; auto.
Qed.

Lemma grows_link_dyn name h cur :
  cur < length h →
  RouteTrieNode.dynamicSegment (h !!! cur) = None →
  grows truthy h (link (RouteTrieNode.set_dynamicSegment (length h)) name h cur).
Proof.
  intros Hcur Hnone. apply grows_link; simpl; auto.
  intros d. by rewrite Hnone.
Qed.

Lemma grows_link_child part name h cur :
  cur < length h →
  RouteTrieNode.children (h !!! cur) !! part = None →
  grows truthy h (link (RouteTrieNode.set_child part (length h)) name h cur).
Proof.
  intros Hcur Hnone. apply grows_link; simpl; auto.
  by apply insert_subseteq.
Qed.

(** Binding a value where none is truthy keeps everything [grows]
    speaks of. *)
Lemma grows_set_value v h l :
  truthy_value truthy (RouteTrieNode.value (h !!! l)) = false →
  grows truthy h (alter (RouteTrieNode.set_value v) l h).
Proof.
  intros Hfalsy. split; [by rewrite length_alter|].
  intros l' Hl'. destruct (decide (l' = l)) as [->|Hne].
  - rewrite list_lookup_total_alter_eq by done.
    split; [done|]. split; [done|]. split; [done|].
    intros Htr. congruence.
  - rewrite list_lookup_total_alter_ne by done. repeat split; auto.
Qed.

Lemma wf_set_value v h l :
  wf_store h → wf_store (alter (RouteTrieNode.set_value v) l h).
Proof.
  intros Hwf. apply wf_store_intro. intros l'.
  rewrite length_alter. intros Hl'.
  destruct (decide (l' = l)) as [->|Hne].
  - rewrite list_lookup_total_alter_eq by done.
    destruct (wf_store_lookup h l Hwf Hl') as [Hch Hdyn]. by split.
  - rewrite list_lookup_total_alter_ne by done. by apply wf_store_lookup.
Qed.

(** The unfolding of one round of the loop, with [link] folded. *)
Lemma insert_walk_cons path part rest h cur :
  insert_walk path (part :: rest) h cur =
    if isDynamicPart part then
      match RouteTrieNode.dynamicSegment (h !!! cur) with
      | Some d =>
          if bool_decide (RouteTrieNode.path (h !!! d) ≠ Js.replace ":" part)
          then (h, inl (ConflictingDynamicSegment path
                          (RouteTrieNode.path (h !!! d))))
          else insert_walk path rest h d
      | None =>
          insert_walk path rest
            (link (RouteTrieNode.set_dynamicSegment (length h))
                  (Js.replace ":" part) h cur)
            (length h)
      end
    else
      match RouteTrieNode.children (h !!! cur) !! part with
      | Some c => insert_walk path rest h c
      | None =>
          insert_walk path rest
            (link (RouteTrieNode.set_child part (length h)) part h cur)
            (length h)
      end.
Proof. reflexivity. Qed.

(** From a node that [new] has just made the loop creates every
    further node and cannot throw. *)
Lemma insert_walk_blank path parts h cur :
  cur < length h → blank (h !!! cur) →
  ∃ h' l, insert_walk path parts h cur = (h', inr l)
          ∧ RouteTrieNode.value (h' !!! l) = None.
Proof.
  revert h cur. induction parts as [|part rest IH]; intros h cur Hcur Hb.
  { exists h, cur. by destruct Hb as (_ & _ & ->). }
  destruct Hb as (Hch & Hdyn & Hval).
  rewrite insert_walk_cons, Hdyn, Hch, lookup_empty.
  destruct (isDynamicPart part);
    (apply IH; [rewrite length_link; lia|];
     rewrite link_lookup_new by done; by repeat split).
Qed.

(** So the loop, started at a node it has just linked, ends at a node
    without a value. *)
Lemma insert_walk_new path rest f name h cur h' r :
  cur < length h →
  insert_walk path rest (link f name h cur) (length h) = (h', r) →
  ∃ l, r = inr l ∧ RouteTrieNode.value (h' !!! l) = None.
Proof.
  intros Hcur Hrun.
  destruct (insert_walk_blank path rest (link f name h cur) (length h))
    as (h'' & l & Hrun' & Hnone).
  - rewrite length_link. lia.
  - rewrite link_lookup_new by done. by repeat split.
  - rewrite Hrun in Hrun'. injection Hrun' as <- ->. eauto.
Qed.

(** What one run of the loop guarantees. *)
Lemma insert_walk_spec path parts h cur h' r :
  wf_store h → cur < length h →
  insert_walk path parts h cur = (h', r) →
  wf_store h' ∧ grows truthy h h' ∧
  match r with
  | inl _ => h' = h
  | inr l =>
      l < length h' ∧ locate parts h' cur = Some l
      ∧ (h' = h ∨ RouteTrieNode.value (h' !!! l) = None)
  end.
Proof.
  revert h cur. induction parts as [|part rest IH]; intros h cur Hwf Hcur.
  { simpl. intros [= <- <-]. split_and!; auto using grows_refl. }
  rewrite insert_walk_cons. simpl locate.
  destruct (isDynamicPart part) eqn:Hpart.
  - destruct (RouteTrieNode.dynamicSegment (h !!! cur)) as [d|] eqn:Hdyn.
    + pose proof (wf_store_dynamic h cur d Hwf Hcur Hdyn) as Hd.
      case_bool_decide as Hname.
      { intros [= <- <-]. split_and!; auto using grows_refl. }
      intros Hrun. destruct (IH h d Hwf Hd Hrun) as (Hwf' & Hg & Hr).
      split; [done|]. split; [done|].
      destruct r as [e|l]; [done|]. destruct Hr as (Hl & Hloc & Hsame).
      split; [done|]. split; [|done].
      destruct Hg as [Hlen Hg].
      destruct (Hg cur Hcur) as (_ & _ & Hkeep & _).
      destruct (Hg d Hd) as (Hp & _).
      rewrite (Hkeep d Hdyn), Hp.
      rewrite bool_decide_true; [done|].
      destruct (decide (RouteTrieNode.path (h !!! d) = Js.replace ":" part));
        [done | by destruct Hname].
    + intros Hrun.
      set (h2 := link _ _ h cur) in Hrun.
      assert (wf_store h2) as Hwf2 by by apply wf_link_dyn.
      assert (length h < length h2) as Hnext
        by (unfold h2; rewrite length_link; lia).
      destruct (insert_walk_new _ _ _ _ _ _ _ _ Hcur Hrun) as (l & -> & Hnone).
      destruct (IH h2 (length h) Hwf2 Hnext Hrun)
        as (Hwf' & Hg & Hl & Hloc & _).
      split; [done|].
      assert (grows truthy h h2) as Hg2 by by apply grows_link_dyn.
      split; [by eapply grows_trans|]. split; [done|].
      split; [|by right].
      destruct Hg as [Hlen Hg].
      destruct (Hg cur ltac:(lia)) as (_ & _ & Hkeep & _).
      destruct (Hg (length h) Hnext) as (Hp & _).
      unfold h2 in Hkeep, Hp.
      rewrite link_lookup_cur in Hkeep by done.
      rewrite link_lookup_new in Hp by done.
      rewrite (Hkeep (length h) eq_refl), Hp. simpl.
      by rewrite bool_decide_true.
  - destruct (RouteTrieNode.children (h !!! cur) !! part) as [c|] eqn:Hch.
    + destruct (wf_store_child h cur part c Hwf Hcur Hch) as [Hc _].
      intros Hrun. destruct (IH h c Hwf Hc Hrun) as (Hwf' & Hg & Hr).
      split; [done|]. split; [done|].
      destruct r as [e|l]; [done|]. destruct Hr as (Hl & Hloc & Hsame).
      split; [done|]. split; [|done].
      destruct Hg as [Hlen Hg].
      destruct (Hg cur Hcur) as (_ & Hsub & _).
      by rewrite (lookup_weaken _ _ _ _ Hch Hsub).
    + intros Hrun.
      set (h2 := link _ _ h cur) in Hrun.
      assert (wf_store h2) as Hwf2 by by apply wf_link_child.
      assert (length h < length h2) as Hnext
        by (unfold h2; rewrite length_link; lia).
      destruct (insert_walk_new _ _ _ _ _ _ _ _ Hcur Hrun) as (l & -> & Hnone).
      destruct (IH h2 (length h) Hwf2 Hnext Hrun)
        as (Hwf' & Hg & Hl & Hloc & _).
      split; [done|].
      assert (grows truthy h h2) as Hg2 by by apply grows_link_child.
      split; [by eapply grows_trans|]. split; [done|].
      split; [|by right].
      destruct Hg as [Hlen Hg].
      destruct (Hg cur ltac:(lia)) as (_ & Hsub & _).
      unfold h2 in Hsub.
      rewrite link_lookup_cur in Hsub by done. simpl in Hsub.
      erewrite lookup_weaken; [done | | exact Hsub].
      apply lookup_insert_eq.
Qed.

End InsertWalk.

(** ** Paths that are already in the store *)

Section Located.

Context {T : Type}.
Variable truthy : T → bool.

Abbreviation nodeL := (RouteTrieNode.t T).
Implicit Types (h : list nodeL) (l cur d c : loc).

(** A path that is in the store stays there, at the same node, however
    the store grows. *)
Lemma locate_grows parts h h' cur l :
  wf_store h → grows truthy h h' → cur < length h →
  locate parts h cur = Some l → locate parts h' cur = Some l.
Proof.
  intros Hwf [Hlen Hg]. revert cur.
  induction parts as [|part rest IH]; intros cur Hcur; simpl; [done|].
  destruct (Hg cur Hcur) as (_ & Hsub & Hkeep & _).
  destruct (isDynamicPart part).
  - destruct (RouteTrieNode.dynamicSegment (h !!! cur)) as [d|] eqn:Hdyn; [|done].
    pose proof (wf_store_dynamic h cur d Hwf Hcur Hdyn) as Hd.
    destruct (Hg d Hd) as (Hp & _).
    rewrite (Hkeep d eq_refl), Hp.
    case_bool_decide; [|done]. by apply IH.
  - destruct (RouteTrieNode.children (h !!! cur) !! part) as [c|] eqn:Hch; [|done].
    destruct (wf_store_child h cur part c Hwf Hcur Hch) as [Hc _].
    rewrite (lookup_weaken _ _ _ _ Hch Hsub). by apply IH.
Qed.

(** Over a prefix that is already in the store the loop of [insert]
    only descends. *)
Lemma insert_walk_app path pre post h cur c :
  locate pre h cur = Some c →
  insert_walk path (pre ++ post) h cur = insert_walk path post h c.
Proof.
  revert cur. induction pre as [|part rest IH]; intros cur; simpl locate.
  { by intros [= ->]. }
  change ((part :: rest) ++ post) with (part :: (rest ++ post)).
  rewrite insert_walk_cons.
  destruct (isDynamicPart part).
  - destruct (RouteTrieNode.dynamicSegment (h !!! cur)) as [d|]; [|done].
    case_bool_decide as Hname; [|done].
    rewrite bool_decide_false by (by intros Hne). apply IH.
  - destruct (RouteTrieNode.children (h !!! cur) !! part) as [c'|]; [|done].
    apply IH.
Qed.

Lemma insert_walk_located path parts h cur l :
  locate parts h cur = Some l → insert_walk path parts h cur = (h, inr l).
Proof.
  intros Hloc.
  rewrite <- (app_nil_r parts). by rewrite (insert_walk_app _ _ _ _ _ _ Hloc).
Qed.

(** The loop throws nothing but ConflictingDynamicSegment, and names
    the path it was handed. *)
Lemma insert_walk_throws path parts h cur h' e :
  insert_walk path parts h cur = (h', inl e) →
  ∃ existing, e = ConflictingDynamicSegment path existing.
Proof.
  revert h cur. induction parts as [|part rest IH]; intros h cur; [done|].
  rewrite insert_walk_cons.
  destruct (isDynamicPart part).
  - destruct (RouteTrieNode.dynamicSegment (h !!! cur)) as [d|]; [|apply IH].
    case_bool_decide; [|apply IH]. intros [= _ <-]. eauto.
  - destruct (RouteTrieNode.children (h !!! cur) !! part); apply IH.
Qed.

(** The path handed to the loop is only quoted in the error. *)
Lemma insert_walk_retarget path path' parts h cur :
  insert_walk path' parts h cur =
    ((insert_walk path parts h cur).1,
     match (insert_walk path parts h cur).2 with
     | inl e => inl (retarget path' e)
     | inr l => inr l
     end).
Proof.
  revert h cur. induction parts as [|part rest IH]; intros h cur; [done|].
  rewrite !insert_walk_cons.
  destruct (isDynamicPart part).
  - destruct (RouteTrieNode.dynamicSegment (h !!! cur)) as [d|]; [|apply IH].
    case_bool_decide; [done | apply IH].
  - destruct (RouteTrieNode.children (h !!! cur) !! part); apply IH.
Qed.

(** *** The whole of [insert] *)

Lemma insert_unfold path value (t : RouteTrie T) :
  insert truthy path value t =
    match insert_walk (slashed path) (parts_of (slashed path)) (store t) (root t) with
    | (h, inl e) => (mkTrie h (root t), Throw e)
    | (h, inr current) =>
        if truthy_value truthy (RouteTrieNode.value (h !!! current)) then
          (mkTrie h (root t), Throw (DuplicateRoute (slashed path)))
        else
          (mkTrie (alter (RouteTrieNode.set_value value) current h) (root t),
           Return tt)
    end.
Proof. unfold insert, slashed. by destruct path. Qed.

Lemma parts_of_slashed path : parts_of (slashed path) = parts_of path.
Proof. unfold slashed. by destruct (Js.head_differs "/" path). Qed.

(** What a call of [insert] guarantees on a well-formed trie. *)
Lemma insert_spec path value (t t' : RouteTrie T) (out : completion unit) :
  wf_trie t → insert truthy path value t = (t', out) →
  wf_trie t' ∧ root t' = root t ∧ grows truthy (store t) (store t') ∧
  match out with
  | Throw _ => t' = t
  | Return _ =>
      ∃ l, l < length (store t')
           ∧ locate (parts_of path) (store t') (root t) = Some l
           ∧ RouteTrieNode.value (store t' !!! l) = value
  end.
Proof.
  intros [Hroot Hwf]. rewrite insert_unfold, parts_of_slashed.
  destruct (insert_walk _ _ _ _) as [h r] eqn:Hrun.
  destruct (insert_walk_spec truthy _ _ _ _ _ _ Hwf Hroot Hrun)
    as (Hwf' & Hg & Hr).
  assert (root t < length h) as Hroot' by (destruct Hg; lia).
  destruct r as [e|l].
  { intros [= <- <-]. subst h. by destruct t. }
  destruct Hr as (Hl & Hloc & Hsame).
  destruct (truthy_value _ _) eqn:Hval.
  - intros [= <- <-]. simpl.
    destruct Hsame as [->|Hnone]; [by destruct t|].
    by rewrite Hnone in Hval.
  - intros [= <- <-]. simpl.
    pose proof (grows_set_value truthy value h l Hval) as Hg'.
    split; [split; simpl; [by rewrite length_alter | by apply wf_set_value]|].
    split; [done|]. split; [by eapply grows_trans|].
    exists l. rewrite length_alter. split; [done|]. split.
    + eapply locate_grows; [exact Hwf' | exact Hg' | lia | done].
    + by rewrite list_lookup_total_alter_eq.
Qed.

End Located.

(** ** Requests that match a route *)

Section Matching.

Context {T : Type}.

Abbreviation nodeM := (RouteTrieNode.t T).
Implicit Types (h : list nodeM) (l cur d c : loc).

(** On a request that matches a route of the store and is not
    shadowed, the loop of [find] ends at the node of the route and
    has bound the captures. *)
Lemma find_walk_located route reqs h cur l acc :
  locate route h cur = Some l →
  segments_match route reqs →
  shadowed route reqs h cur = false →
  find_walk reqs h cur acc = Some (l, captures route reqs acc).
Proof.
  intros Hloc Hmatch. revert cur acc Hloc.
  induction Hmatch as [|r q route reqs Hrq Hmatch IH]; intros cur acc; simpl.
  { by intros [= ->]. }
  destruct (isDynamicPart r) eqn:Hr.
  - destruct (RouteTrieNode.dynamicSegment (h !!! cur)) as [d|]; [|done].
    case_bool_decide as Hname; [|done].
    destruct (RouteTrieNode.children (h !!! cur) !! q); [done|].
    rewrite Hname. apply IH.
  - destruct Hrq as [Hdyn| <-]; [congruence|].
    destruct (RouteTrieNode.children (h !!! cur) !! r); [|done].
    apply IH.
Qed.

(** In a well-formed store a route never shadows itself: no literal
    child is keyed by a dynamic part. *)
Lemma shadowed_self route h cur l :
  wf_store h → cur < length h → locate route h cur = Some l →
  shadowed route route h cur = false.
Proof.
  intros Hwf. revert cur.
  induction route as [|r route IH]; intros cur Hcur; simpl; [done|].
  destruct (isDynamicPart r) eqn:Hr.
  - destruct (RouteTrieNode.dynamicSegment (h !!! cur)) as [d|] eqn:Hdyn; [|done].
    case_bool_decide; [|done].
    destruct (RouteTrieNode.children (h !!! cur) !! r) as [c|] eqn:Hch.
    { destruct (wf_store_child h cur r c Hwf Hcur Hch). congruence. }
    apply IH. by eapply wf_store_dynamic.
  - destruct (RouteTrieNode.children (h !!! cur) !! r) as [c|] eqn:Hch; [|done].
    apply IH. by eapply wf_store_child.
Qed.

Lemma segments_match_refl route : segments_match route route.
Proof. apply Forall2_same_length_lookup_2; [done|]. intros i r q ??. right. congruence. Qed.


(** One round of the loop of [find]. *)
Lemma find_walk_cons h cur part rest (acc : Params) :
  find_walk (part :: rest) h cur acc =
    match RouteTrieNode.children (h !!! cur) !! part with
    | Some c => find_walk rest h c acc
    | None =>
        match RouteTrieNode.dynamicSegment (h !!! cur) with
        | Some d =>
            find_walk rest h d (<[RouteTrieNode.path (h !!! d) := part]> acc)
        | None => None
        end
    end.
Proof. reflexivity. Qed.

(** *** The whole of [find] *)

Lemma isRoot_parts path : isRoot path = true → parts_of path = [].
Proof.
  unfold isRoot. intros [Hlen|Hslash]%orb_true_iff.
  - apply bool_decide_eq_true in Hlen. by destruct path.
  - apply bool_decide_eq_true in Hslash. by subst.
Qed.

Lemma find_unfold path (t : RouteTrie T) :
  find path t =
    if isRoot path then Some (mkFound (root t) None)
    else match find_walk (parts_of path) (store t) (root t) ∅ with
         | Some (current, params) => Some (mkFound current (Some params))
         | None => None
         end.
Proof.
  unfold find. destruct (isRoot path); [done|].
  by destruct (Js.head_differs "/" path).
Qed.

End Matching.

(** ** Invariance of the router states *)

Section RouterInvariants.

Context {RouteHandler : Type}.

Implicit Types (r : Router.t RouteHandler) (t : RouteTrie RouteHandler).

Lemma wf_router_new : wf_router (Router.new (RouteHandler := RouteHandler)).
Proof. apply (bool_decide_unpack _). by vm_compute. Qed.


Lemma router_grows_refl r : router_grows r r.
Proof. intros m t Hm. exists t. auto using grows_refl. Qed.

Lemma router_grows_trans r1 r2 r3 :
  router_grows r1 r2 → router_grows r2 r3 → router_grows r1 r3.
Proof.
  intros H12 H23 m t Hm.
  destruct (H12 m t Hm) as (t2 & Hm2 & Hroot2 & Hg2).
  destruct (H23 m t2 Hm2) as (t3 & Hm3 & Hroot3 & Hg3).
  exists t3. split; [done|]. split; [congruence|]. by eapply grows_trans.
Qed.

(** What a call of [map] guarantees. *)
Lemma map_spec method path handler r r' out :
  wf_router r → Router.map method path handler r = (r', out) →
  wf_router r' ∧ router_grows r r' ∧
  match out with
  | Throw _ => r' = r
  | Return _ =>
      ∃ t' l, Router.routeMethodMap r' !! Js.toUpperCase method = Some t'
              ∧ l < length (store t')
              ∧ locate (parts_of path) (store t') (root t') = Some l
              ∧ RouteTrieNode.value (store t' !!! l) = Some handler
  end.
Proof.
  intros [Hdom Hwf]. unfold Router.map.
  destruct (Router.routeMethodMap r !! Js.toUpperCase method) as [t|] eqn:Hm.
  2:{ intros [= <- <-]. split; [done|]. split; [apply router_grows_refl | done]. }
  destruct (insert handler_truthy path (Some handler) t) as [t' out'] eqn:Hins.
  intros [= <- <-].
  destruct (insert_spec _ _ _ _ _ _ (Hwf _ _ Hm) Hins) as (Hwf' & Hroot & Hg & Hout).
  assert (router_grows r (Router.mk (<[Js.toUpperCase method := t']>
                                       (Router.routeMethodMap r)))) as Hgrows.
  { intros m t0 Hm0. simpl. destruct (decide (m = Js.toUpperCase method)) as [->|Hne].
    - rewrite lookup_insert_eq. exists t'. split; [done|]. by simplify_eq.
    - rewrite lookup_insert_ne by done. exists t0. auto using grows_refl. }
  split; [|split; [done|]].
  - split; simpl.
    + rewrite dom_insert_L, Hdom.
      assert (Js.toUpperCase method ∈ dom (Router.routeMethodMap r)) as Hin
        by (apply elem_of_dom; eauto).
      rewrite Hdom in Hin.
      by apply subseteq_union_1_L, singleton_subseteq_l.
    + by apply map_Forall_insert_2.
  - destruct out'.
    + destruct Hout as (l & Hl & Hloc & Hval). exists t', l. simpl.
      rewrite lookup_insert_eq, Hroot. done.
    + subst t'. destruct r as [m]. simpl in *. f_equal. by apply insert_id.
Qed.

Lemma map_all_spec routes r :
  wf_router r → wf_router (map_all routes r) ∧ router_grows r (map_all routes r).
Proof.
  revert r. induction routes as [|[[m p] hd] routes IH]; intros r Hwf; simpl.
  { split; [done | apply router_grows_refl]. }
  destruct (Router.map m p hd r) as [r1 out] eqn:Hmap.
  destruct (map_spec _ _ _ _ _ _ Hwf Hmap) as (Hwf1 & Hg1 & _).
  destruct (IH r1 Hwf1) as [Hwf2 Hg2]. simpl.
  split; [done|]. by eapply router_grows_trans.
Qed.

(** Every router that registrations make of a new one is well formed. *)
Lemma wf_router_reachable routes :
  wf_router (map_all routes (Router.new (RouteHandler := RouteHandler))).
Proof. apply map_all_spec, wf_router_new. Qed.

(** A route that [map] has registered keeps its node and its handler,
    whatever is registered after it. *)
Lemma registered_node r method path handler later :
  wf_router r →
  (Router.map method path handler r).2 = Return tt →
  ∃ t' l,
    Router.routeMethodMap (map_all later (Router.map method path handler r).1)
      !! Js.toUpperCase method = Some t'
    ∧ wf_trie t'
    ∧ locate (parts_of path) (store t') (root t') = Some l
    ∧ RouteTrieNode.value (store t' !!! l) = Some handler.
Proof.
  intros Hwf Hret.
  destruct (Router.map method path handler r) as [r1 out] eqn:Hmap.
  simpl in *. subst out.
  destruct (map_spec _ _ _ _ _ _ Hwf Hmap)
    as (Hwf1 & _ & t1 & l & Hm1 & Hl & Hloc & Hval).
  destruct (map_all_spec later r1 Hwf1) as [[_ Hwf'] Hg].
  destruct (Hg _ _ Hm1) as (t' & Hm' & Hroot & Hgrows).
  destruct Hwf1 as [_ Hwf1]. destruct (Hwf1 _ _ Hm1) as [Hroot1 Hstore1].
  exists t', l. split; [done|]. split; [exact (Hwf' _ _ Hm')|]. split.
  - rewrite Hroot. by eapply locate_grows.
  - destruct Hgrows as [_ Hgrows].
    destruct (Hgrows l Hl) as (_ & _ & _ & Hkeep).
    rewrite Hkeep; [done|]. by rewrite Hval.
Qed.

End RouterInvariants.

(** * The claims *)

Section Claims.

Context {RouteHandler : Type}.

Implicit Types (r : Router.t RouteHandler) (t : RouteTrie RouteHandler).

(** ** C1: the wildcard *)

(** C1.  With [GET /users/*] as the only route, a request exactly one
    segment below [/users] is found and binds that segment to the key
    [*]; no request two or more segments below [/users] is found,
    because the node of [*] has no child to take the second of them, so
    [/users/a/b/c] is not found; and [/users] itself is not found.  The
    wildcard is an ordinary dynamic segment named [*], not a
    catch-all. *)
Theorem wildcard_binds_one_segment (handler : RouteHandler) :
  let r := (Router.map "GET" "/users/*" handler Router.new).1 in
  Router.find "GET" "/users/a/b/c" r = Return None
  ∧ Router.find "GET" "/users/a" r
    = Return (Some (mkRouterFound handler (Some {["*" := "a"]})))
  ∧ Router.find "GET" "/users" r = Return None
  ∧ (∀ path q, parts_of path = ["users"; q] →
       Router.find "GET" path r
       = Return (Some (mkRouterFound handler (Some {["*" := q]}))))
  ∧ (∀ path q q' rest, parts_of path = "users" :: q :: q' :: rest →
       Router.find "GET" path r = Return None).
Proof.
  intros r.
  split; [by vm_compute|]. split; [by vm_compute|]. split; [by vm_compute|].
  set (t := (insert handler_truthy "/users/*" (Some handler) new_RouteTrie).1).
  assert (Router.routeMethodMap r !! Js.toUpperCase "GET" = Some t) as Ht
    by by vm_compute.
  assert (RouteTrieNode.children (store t !!! root t) !! "users" = Some 1)
    as Husers by by vm_compute.
  assert (RouteTrieNode.children (store t !!! 1) = ∅
          ∧ RouteTrieNode.dynamicSegment (store t !!! 1) = Some 2)
    as [Hch1 Hdyn1] by by vm_compute.
  assert (RouteTrieNode.children (store t !!! 2) = ∅
          ∧ RouteTrieNode.dynamicSegment (store t !!! 2) = None
          ∧ RouteTrieNode.path (store t !!! 2) = "*"
          ∧ RouteTrieNode.value (store t !!! 2) = Some handler)
    as (Hch2 & Hdyn2 & Hname2 & Hval2) by by vm_compute.
  assert (∀ path part rest, parts_of path = part :: rest → isRoot path = false)
    as Hnotroot.
  { intros path part rest Hparts. destruct (isRoot path) eqn:Hr; [|done].
    by rewrite (isRoot_parts _ Hr) in Hparts. }
  split.
  - intros path q Hparts.
    unfold Router.find. rewrite Ht, find_unfold, Hparts, (Hnotroot _ _ _ Hparts).
    rewrite find_walk_cons, Husers.
    rewrite find_walk_cons, Hch1, lookup_empty, Hdyn1, Hname2.
    simpl. by rewrite Hval2, insert_empty.
  - intros path q q' rest Hparts.
    unfold Router.find. rewrite Ht, find_unfold, Hparts, (Hnotroot _ _ _ Hparts).
    rewrite find_walk_cons, Husers.
    rewrite find_walk_cons, Hch1, lookup_empty, Hdyn1.
    by rewrite find_walk_cons, Hch2, lookup_empty, Hdyn2.
Qed.

(** ** C3: the descent rule of [find] *)


(** ** C4: dynamic segments that disagree *)

Lemma insert_conflict (T : Type) (truthy : T → bool) (t : RouteTrie T)
    path value pre part post cur d :
  parts_of path = pre ++ part :: post →
  locate pre (store t) (root t) = Some cur →
  isDynamicPart part = true →
  RouteTrieNode.dynamicSegment (store t !!! cur) = Some d →
  RouteTrieNode.path (store t !!! d) ≠ Js.replace ":" part →
  insert truthy path value t
    = (t, Throw (ConflictingDynamicSegment (slashed path)
                   (RouteTrieNode.path (store t !!! d)))).
Proof.
  intros Hparts Hpre Hpart Hdyn Hname.
  rewrite insert_unfold, parts_of_slashed, Hparts.
  rewrite (insert_walk_app _ _ _ _ _ _ Hpre), insert_walk_cons, Hpart, Hdyn.
  rewrite bool_decide_true by done. by destruct t.
Qed.

(** C4.  Let the walk of an insertion stand at a node that has a
    dynamic child when the next part of the path is dynamic.  If the
    capture name of the part differs from the name of that child the
    registration throws ConflictingDynamicSegment, naming the path (with
    its leading slash) and the name of the child, and the router is as
    before; if the names are the same the walk goes on from the child,
    in the same store. *)
Theorem map_dynamic_segment_rule r method path handler t pre part post cur d :
  Router.routeMethodMap r !! Js.toUpperCase method = Some t →
  parts_of path = pre ++ part :: post →
  locate pre (store t) (root t) = Some cur →
  isDynamicPart part = true →
  RouteTrieNode.dynamicSegment (store t !!! cur) = Some d →
  (RouteTrieNode.path (store t !!! d) ≠ Js.replace ":" part →
   Router.map method path handler r
     = (r, Throw (ConflictingDynamicSegment (slashed path)
                    (RouteTrieNode.path (store t !!! d)))))
  ∧ (RouteTrieNode.path (store t !!! d) = Js.replace ":" part →
     insert_walk (slashed path) (parts_of path) (store t) (root t)
       = insert_walk (slashed path) post (store t) d).
Proof.
  intros Hm Hparts Hpre Hpart Hdyn. split; intros Hname.
  - unfold Router.map. rewrite Hm.
    rewrite (insert_conflict _ _ _ _ _ _ _ _ _ _ Hparts Hpre Hpart Hdyn Hname).
    destruct r as [m]. simpl in *. by rewrite insert_id.
  - rewrite Hparts, (insert_walk_app _ _ _ _ _ _ Hpre), insert_walk_cons.
    rewrite Hpart, Hdyn. by rewrite bool_decide_false by (by intros Hne).
Qed.

(** ** C9: a registration that throws *)

Lemma insert_throws (T : Type) (truthy : T → bool) path value (t : RouteTrie T) e :
  (insert truthy path value t).2 = Throw e →
  (∃ existing, e = ConflictingDynamicSegment (slashed path) existing)
  ∨ e = DuplicateRoute (slashed path).
Proof.
  rewrite insert_unfold.
  destruct (insert_walk _ _ _ _) as [h [e'|l]] eqn:Hrun; simpl.
  - intros [= <-]. left. by eapply insert_walk_throws.
  - destruct (truthy_value _ _); simpl; [|done]. intros [= <-]. by right.
Qed.

(** C9.  On a well-formed trie an insertion that throws has changed
    nothing: the trie after the throw is the trie before it, so every
    lookup answers as before, at the same node and with the same value
    and parameters.  The error is one of ConflictingDynamicSegment and
    DuplicateRoute. *)
Theorem failed_insert_changes_nothing (T : Type) (truthy : T → bool)
    (t : RouteTrie T) path value e :
  wf_trie t →
  (insert truthy path value t).2 = Throw e →
  (insert truthy path value t).1 = t
  ∧ (∀ p, find p (insert truthy path value t).1 = find p t)
  ∧ ((∃ existing, e = ConflictingDynamicSegment (slashed path) existing)
     ∨ e = DuplicateRoute (slashed path)).
Proof.
  intros Hwf Hthrow.
  destruct (insert truthy path value t) as [t' out] eqn:Hins.
  simpl in Hthrow. subst out.
  destruct (insert_spec _ _ _ _ _ _ Hwf Hins) as (_ & _ & _ & ->).
  split; [done|]. split; [done|].
  apply (insert_throws T truthy path value t). by rewrite Hins.
Qed.

(** The same for the router: a [map] that throws leaves the router as
    it was. *)
Lemma failed_map_changes_nothing r method path handler e :
  wf_router r →
  (Router.map method path handler r).2 = Throw e →
  (Router.map method path handler r).1 = r.
Proof.
  intros Hwf Hthrow.
  destruct (Router.map method path handler r) as [r' out] eqn:Hmap.
  simpl in Hthrow. subst out.
  by destruct (map_spec _ _ _ _ _ _ Hwf Hmap) as (_ & _ & ->).
Qed.

(** ** C5: registering a route twice *)

(** C5.  Once [map] has registered a route, and whatever is registered
    after it, a registration for the same method whose path has the same
    segments throws DuplicateRoute, naming the path it was given (with
    its leading slash), and leaves the router as it was.  And an
    insertion whose walk ends without error at a node that holds no
    truthy value returns normally and has bound its value there. *)
Theorem duplicate_route_rule r method path handler later method' path' handler' :
  wf_router r →
  (Router.map method path handler r).2 = Return tt →
  Js.toUpperCase method' = Js.toUpperCase method →
  parts_of path' = parts_of path →
  let r' := map_all later (Router.map method path handler r).1 in
  Router.map method' path' handler' r' = (r', Throw (DuplicateRoute (slashed path')))
  ∧ (∀ t p value h l,
       wf_trie t →
       insert_walk (slashed p) (parts_of (slashed p)) (store t) (root t) = (h, inr l) →
       truthy_value handler_truthy (RouteTrieNode.value (h !!! l)) = false →
       (insert handler_truthy p value t).2 = Return tt
       ∧ RouteTrieNode.value (store (insert handler_truthy p value t).1 !!! l)
         = value).
Proof.
  intros Hwf Hret Hmethod Hparts r'. split.
  - destruct (registered_node r method path handler later Hwf Hret)
      as (t' & l & Hm' & _ & Hloc' & Hval').
    fold r' in Hm'.
    unfold Router.map. rewrite Hmethod, Hm'.
    rewrite insert_unfold, parts_of_slashed, Hparts.
    rewrite (insert_walk_located _ _ _ _ _ Hloc'), Hval'. simpl.
    destruct t' as [h' root']. destruct r' as [m']. simpl in *.
    by rewrite insert_id.
  - intros t p value h l [Hroot Hstore] Hrun Hfalsy.
    destruct (insert_walk_spec handler_truthy _ _ _ _ _ _ Hstore Hroot Hrun)
      as (_ & _ & Hl & _).
    rewrite insert_unfold, Hrun, Hfalsy. simpl.
    split; [done|]. by rewrite list_lookup_total_alter_eq.
Qed.

(** ** C7: not-found *)



(** ** C6: the method *)




(** ** C10: an insertion without a value *)

(** The node [find] returns for a path that is in a well-formed store. *)
Lemma find_located (T : Type) (t : RouteTrie T) path l :
  wf_trie t →
  locate (parts_of path) (store t) (root t) = Some l →
  ∃ params, find path t = Some (mkFound l params).
Proof.
  intros [Hroot Hwf] Hloc. rewrite find_unfold.
  destruct (isRoot path) eqn:Hr.
  - rewrite (isRoot_parts _ Hr) in Hloc. injection Hloc as <-. by eexists.
  - erewrite find_walk_located;
      [by eexists | exact Hloc | apply segments_match_refl
      | by eapply shadowed_self].
Qed.

(** C10.  Whether a node holds a route is a matter of the truthiness
    of its value, not of an insertion having ended there.  [insert(p)]
    without a value, or with a value that is not truthy, when it
    returns, has made the nodes of [p] and left that value at the last
    one.  An [insert(p, v)] after it returns normally, for every [v],
    without DuplicateRoute; and after the insertion without a value, a
    router whose trie for the method is that trie answers
    [find(method, p)] with not-found. *)
Theorem valueless_insert_rule (T : Type) (truthy : T → bool)
    (t : RouteTrie T) path value :
  wf_trie t →
  truthy_value truthy value = false →
  (insert truthy path value t).2 = Return tt →
  let t1 := (insert truthy path value t).1 in
  (∃ l, locate (parts_of path) (store t1) (root t1) = Some l
        ∧ RouteTrieNode.value (store t1 !!! l) = value)
  ∧ (∀ v, (insert truthy path v t1).2 = Return tt)
  ∧ (value = None →
     ∀ (r : Router.t T) method,
       Router.routeMethodMap r !! Js.toUpperCase method = Some t1 →
       Router.find method path r = Return None).
Proof.
  intros Hwf Hfalsy Hret t1.
  destruct (insert truthy path value t) as [t' out] eqn:Hins.
  simpl in Hret, t1. subst out t1.
  destruct (insert_spec _ _ _ _ _ _ Hwf Hins)
    as (Hwf' & Hroot & _ & l & Hl & Hloc & Hval).
  rewrite <- Hroot in Hloc.
  split; [by exists l|]. split.
  - intros v. rewrite insert_unfold, parts_of_slashed.
    by rewrite (insert_walk_located _ _ _ _ _ Hloc), Hval, Hfalsy.
  - intros -> r method Hm. unfold Router.find. rewrite Hm.
    destruct (find_located _ t' path l Hwf' Hloc) as [params ->]. simpl.
    by rewrite Hval.
Qed.

(** ** C2: a registered route is found *)


(** ** C8: slashes *)

Lemma isRoot_slashed path : isRoot path = bool_decide (slashed path = "/").
Proof.
  destruct path as [|a path]; [done|].
  unfold isRoot, slashed. simpl.
  destruct (Ascii.eqb_spec a "/") as [->|Hne]; simpl.
  - by apply bool_decide_ext.
  - apply bool_decide_eq_false. congruence.
Qed.

Lemma insert_same_parts (T : Type) (truthy : T → bool) path path2 value
    (t : RouteTrie T) :
  parts_of path2 = parts_of path →
  insert truthy path2 value t
    = ((insert truthy path value t).1,
       retarget_completion (slashed path2) (insert truthy path value t).2).
Proof.
  intros Hparts. rewrite !insert_unfold, !parts_of_slashed, Hparts.
  rewrite (insert_walk_retarget (slashed path) (slashed path2)).
  destruct (insert_walk (slashed path) _ _ _) as [h [e|l]]; simpl; [done|].
  by destruct (truthy_value _ _).
Qed.

Lemma find_same_parts (T : Type) path path2 (t : RouteTrie T) :
  parts_of path2 = parts_of path → isRoot path2 = isRoot path →
  find path2 t = find path t.
Proof. intros Hparts Hroot. by rewrite !find_unfold, Hparts, Hroot. Qed.

Lemma slashed_same_parts path path2 :
  slashed path2 = slashed path → parts_of path2 = parts_of path.
Proof. intros Heq. by rewrite <- (parts_of_slashed path2), Heq, parts_of_slashed. Qed.

(** C8, amended.  Two paths with the same non-empty segments are the
    same to [map] and [find], but for two things.  An error names the
    path as written, with its leading slash; and [find] answers ['']
    and ['/'] with no parameter mapping where every other path gets
    one.  So registration changes the router alike and ends alike up to
    the path named, and lookup answers alike when both paths are root
    paths or neither is.  Paths that differ only by the leading slash
    are the same throughout. *)
Theorem slash_normalisation_rule r method path path2 handler :
  parts_of path2 = parts_of path →
  (Router.map method path2 handler r).1 = (Router.map method path handler r).1
  ∧ (Router.map method path2 handler r).2
    = retarget_completion (slashed path2) (Router.map method path handler r).2
  ∧ (isRoot path2 = isRoot path →
     Router.find method path2 r = Router.find method path r)
  ∧ (slashed path2 = slashed path →
     Router.map method path2 handler r = Router.map method path handler r
     ∧ Router.find method path2 r = Router.find method path r)
  ∧ (Js.head_differs "/" path = true →
     Router.map method ("/" +:+ path) handler r = Router.map method path handler r
     ∧ Router.find method ("/" +:+ path) r = Router.find method path r).
Proof.
  intros Hparts.
  assert (∀ p p2, parts_of p2 = parts_of p →
            Router.map method p2 handler r
              = ((Router.map method p handler r).1,
                 retarget_completion (slashed p2) (Router.map method p handler r).2))
    as Hmap.
  { intros p p2 Hp. unfold Router.map.
    destruct (Router.routeMethodMap r !! Js.toUpperCase method) as [t|]; [|done].
    rewrite (insert_same_parts _ _ p p2 _ _ Hp).
    by destruct (insert handler_truthy p (Some handler) t). }
  assert (∀ p p2, parts_of p2 = parts_of p → isRoot p2 = isRoot p →
            Router.find method p2 r = Router.find method p r) as Hfind.
  { intros p p2 Hp Hr. unfold Router.find.
    destruct (Router.routeMethodMap r !! Js.toUpperCase method) as [t|]; [|done].
    by rewrite (find_same_parts _ p p2 t Hp Hr). }
  assert (∀ p p2, slashed p2 = slashed p →
            Router.map method p2 handler r = Router.map method p handler r
            ∧ Router.find method p2 r = Router.find method p r) as Hslash.
  { intros p p2 Heq. pose proof (slashed_same_parts _ _ Heq) as Hp. split.
    - unfold Router.map.
      destruct (Router.routeMethodMap r !! Js.toUpperCase method) as [t|]; [|done].
      by rewrite !insert_unfold, Heq.
    - apply Hfind; [done|]. by rewrite !isRoot_slashed, Heq. }
  split; [by rewrite (Hmap path path2 Hparts)|].
  split; [by rewrite (Hmap path path2 Hparts)|].
  split; [by apply Hfind|].
  split; [by apply Hslash|].
  intros Hhead. apply Hslash. unfold slashed at 2. by rewrite Hhead.
Qed.

End Claims.

(** ** The rules at work *)

(** [GET /posts/:id] followed by [GET /posts/:post_id]. *)
Lemma map_dynamic_segment_rule_witness :
  Router.map "GET" "/posts/:post_id" "second" posts_id_router
    = (posts_id_router,
       Throw (ConflictingDynamicSegment "/posts/:post_id" "id")).
Proof.
  exact (proj1 (map_dynamic_segment_rule posts_id_router "GET" "/posts/:post_id"
                  "second" posts_id_trie ["posts"] ":post_id" [] 1 2
                  ltac:(by vm_compute) eq_refl ltac:(by vm_compute) eq_refl
                  ltac:(by vm_compute))
               ltac:(by vm_compute)).
Defined.

(** [GET /a/b] registered twice. *)
Lemma duplicate_route_rule_witness :
  Router.map "GET" "/a/b" "second" a_b_router
    = (a_b_router, Throw (DuplicateRoute "/a/b")).
Proof.
  exact (proj1 (duplicate_route_rule Router.new "GET" "/a/b" "first" []
                  "GET" "/a/b" "second"
                  ltac:(apply (bool_decide_unpack _); by vm_compute)
                  ltac:(by vm_compute) eq_refl eq_refl)).
Defined.

(** A second [/a/b], written [a//b], on a trie that has [/a/b]. *)
Lemma failed_insert_changes_nothing_witness :
  (insert handler_truthy "a//b" (Some "second") a_b_trie).1 = a_b_trie.
Proof.
  exact (proj1 (failed_insert_changes_nothing string handler_truthy a_b_trie
                  "a//b" (Some "second") (DuplicateRoute "/a//b")
                  ltac:(apply (bool_decide_unpack _); by vm_compute)
                  ltac:(by vm_compute))).
Defined.



(** [insert('/a/b')], and then [find('GET', '/a/b')] and
    [insert('/a/b', handler)]. *)
Lemma valueless_insert_rule_witness :
  (insert handler_truthy "/a/b" (Some "handler") valueless_trie).2 = Return tt
  ∧ Router.find "GET" "/a/b" valueless_router = Return None.
Proof.
  pose proof (valueless_insert_rule string handler_truthy new_RouteTrie
                "/a/b" None
                ltac:(apply (bool_decide_unpack _); by vm_compute)
                eq_refl ltac:(by vm_compute)) as (_ & Hagain & Hfind).
  split; [exact (Hagain (Some "handler"))|].
  exact (Hfind eq_refl valueless_router "GET" ltac:(by vm_compute)).
Defined.



(** [/a//b/] against [/a/b], on a router that has [/a/b]. *)
Lemma slash_normalisation_rule_witness :
  Router.map "GET" "/a//b/" "second" a_b_router
    = (a_b_router, Throw (DuplicateRoute "/a//b/"))
  ∧ Router.find "GET" "/a//b/" a_b_router = Router.find "GET" "/a/b" a_b_router.
Proof.
  pose proof (slash_normalisation_rule a_b_router "GET" "/a/b" "/a//b/" "second"
                eq_refl) as (Hstate & Hout & Hfind & _).
  split; [|by apply Hfind].
  rewrite (surjective_pairing (Router.map "GET" "/a//b/" "second" a_b_router)).
  rewrite Hstate, Hout. by vm_compute.
Defined.

(** [//] and [/] have the same segments, none, and [find] tells them
    apart. *)
Lemma double_slash_is_not_root :
  parts_of "//" = parts_of "/"
  ∧ Router.find "GET" "//" root_router
    = Return (Some (mkRouterFound "root" (Some ∅)))
  ∧ Router.find "GET" "/" root_router
    = Return (Some (mkRouterFound "root" None))
  ∧ Router.find "GET" "//" root_router ≠ Router.find "GET" "/" root_router.
Proof. repeat split; by vm_compute. Qed.

(** * Further properties *)

(** ** The query string *)

Section QueryString.

Implicit Types (s p q r : string) (c : ascii).

Lemma string_length_app p r :
  String.length (p +:+ r) = String.length p + String.length r.
Proof. induction p as [|a p IH]; simpl; [done | by rewrite IH]. Qed.

Lemma substring_all s n : String.length s ≤ n → String.substring 0 n s = s.
Proof.
  revert n. induction s as [|a s IH]; intros [|n] Hn; simpl in *; try done; try lia.
  f_equal. apply IH. lia.
Qed.

Lemma substring_app_l p r : String.substring 0 (String.length p) (p +:+ r) = p.
Proof.
  induction p as [|a p IH]; simpl; [by destruct r | by rewrite IH].
Qed.

Lemma substring_app_r p r n m :
  String.substring (String.length p + n) m (p +:+ r) = String.substring n m r.
Proof. induction p as [|a p IH]; simpl; [done | exact IH]. Qed.

Lemma indexOf_range c s :
  Js.indexOf c s = (-1)%Z
  ∨ (0 ≤ Js.indexOf c s < Z.of_nat (String.length s))%Z.
Proof.
  induction s as [|a s IH]; simpl; [by left|].
  destruct (Ascii.eqb a c); [right; lia|].
  destruct IH as [->|IH]; [by left|].
  right. destruct (Z.eqb_spec (Js.indexOf c s) (-1)); lia.
Qed.

(** Where [indexOf] finds the character, the string is a piece without
    the character, the character, and the rest. *)
Lemma indexOf_found c s :
  Js.indexOf c s ≠ (-1)%Z →
  ∃ p q, s = p +:+ String c q
         ∧ Js.indexOf c s = Z.of_nat (String.length p)
         ∧ Js.indexOf c p = (-1)%Z.
Proof.
  induction s as [|a s IH]; simpl; [done|].
  destruct (Ascii.eqb_spec a c) as [->|Hne].
  { intros _. by exists EmptyString, s. }
  destruct (Z.eqb_spec (Js.indexOf c s) (-1)) as [|Hfound]; [done|].
  intros _. destruct (IH Hfound) as (p & q & -> & Hi & Hp).
  exists (String a p), q. simpl. split; [done|]. split; [lia|].
  destruct (Ascii.eqb_spec a c); [done|]. by rewrite Hp.
Qed.

Lemma indexOf_app c p q :
  Js.indexOf c p = (-1)%Z →
  Js.indexOf c (p +:+ String c q) = Z.of_nat (String.length p).
Proof.
  induction p as [|a p IH]; simpl.
  { intros _. by rewrite Ascii.eqb_refl. }
  destruct (Ascii.eqb a c); [done|].
  destruct (Z.eqb_spec (Js.indexOf c p) (-1)) as [Hp|];
    [|intros ?; destruct (indexOf_range c p); lia].
  intros _. rewrite (IH Hp).
  destruct (Z.eqb_spec (Z.of_nat (String.length p)) (-1)); lia.
Qed.

(** The two calls of [substr] in [splitQueryParamPart], at the
    position of the character. *)
Lemma substr_before c p q :
  Js.substr (p +:+ String c q) 0 (Z.of_nat (String.length p)) = p.
Proof.
  unfold Js.substr. rewrite string_length_app. simpl.
  replace (Z.to_nat (Z.min 0 _)) with 0 by lia.
  replace (Z.to_nat _) with (String.length p) by lia.
  apply substring_app_l.
Qed.

Lemma substr_after c p q :
  Js.substr (p +:+ String c q) (Z.of_nat (String.length p) + 1)
    (Z.of_nat (String.length (p +:+ String c q))) = q.
Proof.
  unfold Js.substr. rewrite string_length_app. simpl.
  destruct (Z.ltb_spec (Z.of_nat (String.length p) + 1) 0); [lia|].
  replace (Z.to_nat (Z.min _ _)) with (String.length p + 1) by lia.
  replace (Z.to_nat (Z.min _ _)) with (String.length q) by lia.
  rewrite substring_app_r. simpl. by apply substring_all.
Qed.

Lemma splitQueryParamPart_found p q :
  Js.indexOf "?" p = (-1)%Z →
  Parse.splitQueryParamPart (p +:+ String "?" q) = Parse.mk p (Some q).
Proof.
  intros Hp. unfold Parse.splitQueryParamPart.
  rewrite (indexOf_app _ _ _ Hp).
  destruct (Z.eqb_spec (Z.of_nat (String.length p)) (-1)); [lia|].
  by rewrite substr_before, substr_after.
Qed.

(** X1.  Cutting loses nothing: the path, and [?] with the query string
    when there is one, put together again are the url. *)
Theorem splitQueryParamPart_whole url :
  Parse.whole (Parse.splitQueryParamPart url) = url.
Proof.
  destruct (Z.eq_dec (Js.indexOf "?" url) (-1)%Z) as [Hnone|Hfound].
  - unfold Parse.splitQueryParamPart. by rewrite Hnone.
  - destruct (indexOf_found _ _ Hfound) as (p & q & -> & _ & Hp).
    by rewrite (splitQueryParamPart_found _ _ Hp).
Qed.

(** X2.  The path part never holds a [?], and there is a query string
    exactly when the url holds a [?]. *)
Theorem splitQueryParamPart_path url :
  Js.indexOf "?" (Parse.path (Parse.splitQueryParamPart url)) = (-1)%Z
  ∧ (Parse.qsp (Parse.splitQueryParamPart url) = None
     ↔ Js.indexOf "?" url = (-1)%Z).
Proof.
  destruct (Z.eq_dec (Js.indexOf "?" url) (-1)%Z) as [Hnone|Hfound].
  - unfold Parse.splitQueryParamPart. rewrite Hnone. by simpl.
  - destruct (indexOf_found _ _ Hfound) as (p & q & -> & _ & Hp).
    rewrite (splitQueryParamPart_found _ _ Hp). simpl.
    split; [done|]. split; [done|]. by intros ?.
Qed.

(** X3.  A url made of a path without [?], a [?] and any query string
    is cut back into the two. *)
Theorem splitQueryParamPart_first p q :
  Js.indexOf "?" p = (-1)%Z →
  Parse.splitQueryParamPart (p +:+ "?" +:+ q) = Parse.mk p (Some q).
Proof. apply splitQueryParamPart_found. Qed.

End QueryString.

Lemma splitQueryParamPart_first_witness :
  Parse.splitQueryParamPart "/posts/42?a=1?b=2"
    = Parse.mk "/posts/42" (Some "a=1?b=2").
Proof.
  exact (splitQueryParamPart_first "/posts/42" "a=1?b=2" eq_refl).
Defined.

(** ** The router *)

Section RouterFurther.

Context {RouteHandler : Type}.

Implicit Types (r : Router.t RouteHandler) (t : RouteTrie RouteHandler).





End RouterFurther.


(** ** The tree of nodes *)

Section TreeLemmas.

Context {T : Type}.
Variable truthy : T → bool.

Abbreviation nodeR := (RouteTrieNode.t T).
Implicit Types (h : list nodeR) (n : nodeR) (l cur d c x : loc).

(** Linking a new node leaves the path and the parent of every old
    node alone. *)
Lemma link_old f name h cur x :
  (∀ n, RouteTrieNode.path (f n) = RouteTrieNode.path n) →
  (∀ n, RouteTrieNode.parent (f n) = RouteTrieNode.parent n) →
  cur < length h → x < length h →
  RouteTrieNode.path (link f name h cur !!! x) = RouteTrieNode.path (h !!! x)
  ∧ RouteTrieNode.parent (link f name h cur !!! x)
    = RouteTrieNode.parent (h !!! x).
Proof.
  intros Hpath Hparent Hcur Hx. destruct (decide (x = cur)) as [->|Hne].
  - by rewrite link_lookup_cur.
  - by rewrite link_lookup_other.
Qed.

Lemma links_ok_new h name cur f :
  cur < length h →
  links_ok (link f name h cur) (length h).
Proof.
  intros Hcur. unfold links_ok. rewrite link_lookup_new by done. simpl.
  split; [intros k c; by rewrite lookup_empty|]. split; [done|].
  by intros p [= <-].
Qed.

Lemma tree_link_dyn name h cur :
  wf_store h → tree_store h → cur < length h →
  RouteTrieNode.dynamicSegment (h !!! cur) = None →
  tree_store (link (RouteTrieNode.set_dynamicSegment (length h)) name h cur).
Proof.
  intros Hwf Htree Hcur Hnone l. rewrite length_link. intros Hl.
  set (f := RouteTrieNode.set_dynamicSegment (length h)).
  assert (∀ x, x < length h →
            RouteTrieNode.path (link f name h cur !!! x)
              = RouteTrieNode.path (h !!! x)
            ∧ RouteTrieNode.parent (link f name h cur !!! x)
              = RouteTrieNode.parent (h !!! x)) as Hold
    by (intros x Hx; by apply link_old).
  destruct (decide (l = length h)) as [->|Hnew]; [by apply links_ok_new|].
  assert (l < length h) as Hl' by lia.
  destruct (Htree l Hl') as (Hch & Hdyn & Hpar).
  unfold links_ok. destruct (decide (l = cur)) as [->|Hne].
  - rewrite link_lookup_cur by done. simpl. split; [|split].
    + intros k c Hk. destruct (Hch k c Hk) as (Hlt & Hp & Hn & _).
      destruct (wf_store_child h cur k c Hwf Hcur Hk) as [Hc _].
      destruct (Hold c Hc) as [-> ->]. split_and!; try done.
      intros [= Heq]. lia.
    + intros d [= <-]. split; [done|]. by rewrite link_lookup_new.
    + done.
  - rewrite link_lookup_other by done. split; [|split].
    + intros k c Hk. destruct (Hch k c Hk) as (Hlt & Hp & Hn & Hnd).
      destruct (wf_store_child h l k c Hwf Hl' Hk) as [Hc _].
      by destruct (Hold c Hc) as [-> ->].
    + intros d Hd. destruct (Hdyn d Hd) as [Hlt Hp].
      pose proof (wf_store_dynamic h l d Hwf Hl' Hd) as Hdlt.
      by destruct (Hold d Hdlt) as [_ ->].
    + done.
Qed.

Lemma tree_link_child part h cur :
  wf_store h → tree_store h → cur < length h →
  RouteTrieNode.children (h !!! cur) !! part = None →
  tree_store (link (RouteTrieNode.set_child part (length h)) part h cur).
Proof.
  intros Hwf Htree Hcur Hnone l. rewrite length_link. intros Hl.
  set (f := RouteTrieNode.set_child part (length h)).
  assert (∀ x, x < length h →
            RouteTrieNode.path (link f part h cur !!! x)
              = RouteTrieNode.path (h !!! x)
            ∧ RouteTrieNode.parent (link f part h cur !!! x)
              = RouteTrieNode.parent (h !!! x)) as Hold
    by (intros x Hx; by apply link_old).
  destruct (decide (l = length h)) as [->|Hnew]; [by apply links_ok_new|].
  assert (l < length h) as Hl' by lia.
  destruct (Htree l Hl') as (Hch & Hdyn & Hpar).
  unfold links_ok. destruct (decide (l = cur)) as [->|Hne].
  - rewrite link_lookup_cur by done. simpl. split; [|split].
    + intros k c. destruct (decide (k = part)) as [->|Hk].
      * rewrite lookup_insert_eq. intros [= <-].
        rewrite link_lookup_new by done. simpl. split_and!; try done.
        intros Hd. pose proof (wf_store_dynamic h cur _ Hwf Hcur Hd). lia.
      * rewrite lookup_insert_ne by done. intros Hc.
        destruct (Hch k c Hc) as (Hlt & Hp & Hn & Hnd).
        destruct (wf_store_child h cur k c Hwf Hcur Hc) as [Hclt _].
        by destruct (Hold c Hclt) as [-> ->].
    + intros d Hd. destruct (Hdyn d Hd) as [Hlt Hp].
      pose proof (wf_store_dynamic h cur d Hwf Hcur Hd) as Hdlt.
      by destruct (Hold d Hdlt) as [_ ->].
    + done.
  - rewrite link_lookup_other by done. split; [|split].
    + intros k c Hk. destruct (Hch k c Hk) as (Hlt & Hp & Hn & Hnd).
      destruct (wf_store_child h l k c Hwf Hl' Hk) as [Hc _].
      by destruct (Hold c Hc) as [-> ->].
    + intros d Hd. destruct (Hdyn d Hd) as [Hlt Hp].
      pose proof (wf_store_dynamic h l d Hwf Hl' Hd) as Hdlt.
      by destruct (Hold d Hdlt) as [_ ->].
    + done.
Qed.

(** The loop of [insert] keeps the store a tree, and leaves the path
    and the parent of the nodes it found alone. *)
Lemma insert_walk_tree path parts h cur h' r :
  wf_store h → tree_store h → cur < length h →
  insert_walk path parts h cur = (h', r) →
  tree_store h'
  ∧ ∀ x, x < length h →
      RouteTrieNode.parent (h' !!! x) = RouteTrieNode.parent (h !!! x).
Proof.
  revert h cur. induction parts as [|part rest IH]; intros h cur Hwf Htree Hcur.
  { by intros [= <- <-]. }
  rewrite insert_walk_cons.
  destruct (isDynamicPart part) eqn:Hpart.
  - destruct (RouteTrieNode.dynamicSegment (h !!! cur)) as [d|] eqn:Hdyn.
    + case_bool_decide; [by intros [= <- <-]|].
      apply IH; [done | done | by eapply wf_store_dynamic].
    + intros Hrun. set (h2 := link _ _ h cur) in Hrun.
      assert (length h < length h2) as Hnext
        by (unfold h2; rewrite length_link; lia).
      destruct (IH h2 (length h) (wf_link_dyn _ h cur Hwf Hcur)
                  (tree_link_dyn _ h cur Hwf Htree Hcur Hdyn) Hnext Hrun)
        as [Htree' Hpar].
      split; [done|]. intros x Hx.
      rewrite Hpar by lia. by apply link_old.
  - destruct (RouteTrieNode.children (h !!! cur) !! part) as [c|] eqn:Hch.
    + apply IH; [done | done | by eapply wf_store_child].
    + intros Hrun. set (h2 := link _ _ h cur) in Hrun.
      assert (length h < length h2) as Hnext
        by (unfold h2; rewrite length_link; lia).
      destruct (IH h2 (length h) (wf_link_child _ _ h cur Hwf Hcur Hpart)
                  (tree_link_child _ h cur Hwf Htree Hcur Hch) Hnext Hrun)
        as [Htree' Hpar].
      split; [done|]. intros x Hx.
      rewrite Hpar by lia. by apply link_old.
Qed.

Lemma tree_set_value v h l :
  tree_store h → tree_store (alter (RouteTrieNode.set_value v) l h).
Proof.
  intros Htree x. rewrite length_alter. intros Hx.
  assert (∀ y, RouteTrieNode.parent (alter (RouteTrieNode.set_value v) l h !!! y)
               = RouteTrieNode.parent (h !!! y)
             ∧ RouteTrieNode.path (alter (RouteTrieNode.set_value v) l h !!! y)
               = RouteTrieNode.path (h !!! y)
             ∧ RouteTrieNode.children (alter (RouteTrieNode.set_value v) l h !!! y)
               = RouteTrieNode.children (h !!! y)
             ∧ RouteTrieNode.dynamicSegment
                 (alter (RouteTrieNode.set_value v) l h !!! y)
               = RouteTrieNode.dynamicSegment (h !!! y)) as Hsame.
  { intros y. rewrite list_lookup_total_alter. by case_decide as Hy; [destruct Hy as [-> _]|]. }
  destruct (Htree x Hx) as (Hch & Hdyn & Hpar). unfold links_ok.
  destruct (Hsame x) as (-> & _ & -> & ->). split; [|split; [|done]].
  - intros k c Hk. destruct (Hsame c) as (-> & -> & _). by apply Hch.
  - intros d Hd. destruct (Hsame d) as (-> & _). by apply Hdyn.
Qed.

(** [insert] keeps a trie a trie. *)
Lemma insert_tree path value (t : RouteTrie T) :
  tree_trie t → tree_trie (insert truthy path value t).1.
Proof.
  intros (Hwf & Htree & Hparent & Hpath).
  destruct (insert truthy path value t) as [t' out] eqn:Hins.
  destruct (insert_spec truthy _ _ _ _ _ Hwf Hins) as (Hwf' & Hroot & Hg & _).
  simpl. split; [done|]. rewrite Hroot.
  destruct Hwf as [Hroot0 Hstore]. destruct Hg as [_ Hg].
  destruct (Hg (root t) Hroot0) as (Hp & _).
  rewrite Hp. rewrite insert_unfold in Hins.
  destruct (insert_walk _ _ _ _) as [h r] eqn:Hrun.
  destruct (insert_walk_tree _ _ _ _ _ _ Hstore Htree Hroot0 Hrun) as [Htree' Hpar].
  destruct r as [e|l].
  { injection Hins as <- _. simpl. by rewrite Hpar. }
  destruct (truthy_value _ _).
  - injection Hins as <- _. simpl. by rewrite Hpar.
  - injection Hins as <- _. simpl. split; [by apply tree_set_value|].
    split; [|done].
    rewrite list_lookup_total_alter.
    case_decide as Hl; [destruct Hl as [-> _]|]; simpl; by rewrite Hpar.
Qed.

Lemma tree_trie_new : tree_trie (new_RouteTrie (T := T)).
Proof.
  split; [apply (bool_decide_unpack _); by vm_compute|].
  split; [|done]. intros [|l] Hl; simpl in Hl; [|lia].
  unfold links_ok. cbn.
  split; [intros k c; by rewrite lookup_empty|]. by split.
Qed.

(** Every trie that insertions make of a new one is a trie. *)
Lemma tree_trie_reachable routes :
  tree_trie (insert_all truthy routes new_RouteTrie).
Proof.
  unfold insert_all. generalize (tree_trie_new).
  generalize (new_RouteTrie (T := T)).
  induction routes as [|route routes IH]; intros t Ht; simpl; [done|].
  apply IH. by apply insert_tree.
Qed.

End TreeLemmas.

(** ** [fullPath] *)

Section FullPath.

Context {T : Type}.
Variable truthy : T → bool.

Abbreviation nodeF := (RouteTrieNode.t T).
Implicit Types (h : list nodeF) (l cur d c x : loc) (s p q : string).

Lemma string_app_assoc s p q : (s +:+ p) +:+ q = s +:+ (p +:+ q).
Proof.
  induction s as [|a s IH]; [done|]. exact (f_equal (String a) IH).
Qed.

Lemma string_app_nil_r s : s +:+ "" = s.
Proof.
  induction s as [|a s IH]; [done|]. exact (f_equal (String a) IH).
Qed.

Lemma path_of_names_snoc names name :
  path_of_names (names ++ [name]) = path_of_names names +:+ "/" +:+ name.
Proof.
  induction names as [|n names IH]; simpl.
  - by rewrite string_app_nil_r.
  - rewrite IH. by rewrite !string_app_assoc.
Qed.

Lemma locate_app pre post h cur :
  locate (pre ++ post) h cur
    = match locate pre h cur with
      | Some c => locate post h c
      | None => None
      end.
Proof.
  revert cur. induction pre as [|part pre IH]; intros cur; simpl; [done|].
  destruct (isDynamicPart part).
  - destruct (RouteTrieNode.dynamicSegment (h !!! cur)) as [d|]; [|done].
    by case_bool_decide.
  - by destruct (RouteTrieNode.children (h !!! cur) !! part).
Qed.

(** One step of a walk in a tree: the node it enters is later in the
    store, has the node it leaves for parent, and is named after the
    part. *)
Lemma locate_step h cur part l :
  wf_store h → tree_store h → cur < length h →
  locate [part] h cur = Some l →
  cur < l ∧ l < length h
  ∧ RouteTrieNode.parent (h !!! l) = Some cur
  ∧ RouteTrieNode.path (h !!! l) = segment_name part.
Proof.
  intros Hwf Htree Hcur. destruct (Htree cur Hcur) as (Hch & Hdyn & _).
  simpl. unfold segment_name. destruct (isDynamicPart part).
  - destruct (RouteTrieNode.dynamicSegment (h !!! cur)) as [d|] eqn:Hd; [|done].
    case_bool_decide as Hname; [|done]. intros [= <-].
    destruct (Hdyn d eq_refl) as [Hlt Hp].
    pose proof (wf_store_dynamic h cur d Hwf Hcur Hd). done.
  - destruct (RouteTrieNode.children (h !!! cur) !! part) as [c|] eqn:Hc; [|done].
    intros [= <-]. destruct (Hch part c Hc) as (Hlt & Hp & Hn & _).
    by destruct (wf_store_child h cur part c Hwf Hcur Hc).
Qed.

Lemma locate_bound parts h cur l :
  wf_store h → tree_store h → cur < length h →
  locate parts h cur = Some l →
  l < length h ∧ cur ≤ l ∧ (parts ≠ [] → cur < l).
Proof.
  intros Hwf Htree. revert cur.
  induction parts as [|part parts IH]; intros cur Hcur.
  { simpl. intros [= <-]. by split_and!. }
  change (part :: parts) with ([part] ++ parts). rewrite locate_app.
  destruct (locate [part] h cur) as [c|] eqn:Hstep; [|done].
  destruct (locate_step _ _ _ _ Hwf Htree Hcur Hstep) as (Hlt & Hc & _).
  intros Hrest. destruct (IH c Hc Hrest) as (Hl & Hle & _).
  split_and!; [done | lia | intros _; lia].
Qed.

(** A walk goes at least as many nodes down the store as it has
    parts. *)
Lemma locate_depth parts h cur l :
  wf_store h → tree_store h → cur < length h →
  locate parts h cur = Some l →
  l < length h ∧ cur + length parts ≤ l.
Proof.
  intros Hwf Htree. revert cur.
  induction parts as [|part parts IH]; intros cur Hcur.
  { simpl. intros [= <-]. split; [done | lia]. }
  change (part :: parts) with ([part] ++ parts). rewrite locate_app.
  destruct (locate [part] h cur) as [c|] eqn:Hstep; [|done].
  destruct (locate_step _ _ _ _ Hwf Htree Hcur Hstep) as (Hlt & Hc & _).
  intros Hrest. destruct (IH c Hc Hrest) as [Hl Hle].
  split; [done|]. simpl. lia.
Qed.

(** More fuel does not change what the getter returns. *)
Lemma fullPath_more fuel fuel' h l s :
  fullPath fuel h l = Some s → fuel ≤ fuel' → fullPath fuel' h l = Some s.
Proof.
  revert fuel' l s. induction fuel as [|fuel IH]; intros [|fuel'] l s; simpl;
    try done; try lia.
  destruct (RouteTrieNode.parent (h !!! l)) as [p|]; [|done].
  destruct (fullPath fuel h p) as [sp|] eqn:Hp; [|done].
  intros [= <-] Hle. by rewrite (IH fuel' p sp Hp ltac:(lia)).
Qed.

(** The full path of the node at the end of a walk: that of the node
    where the walk began, and the names of the parts walked. *)
Lemma fullPath_locate parts h cur l fuel s :
  wf_store h → tree_store h → cur < length h →
  locate parts h cur = Some l →
  fullPath fuel h cur = Some s →
  fullPath (fuel + length parts) h l
    = Some (s +:+ path_of_names (segment_name <$> parts)).
Proof.
  intros Hwf Htree Hcur. revert l.
  induction parts as [|part parts IH] using rev_ind; intros l.
  { simpl. intros [= <-] Hs. rewrite Nat.add_0_r, string_app_nil_r. done. }
  rewrite locate_app, length_app, fmap_app.
  change (segment_name <$> [part]) with [segment_name part].
  rewrite path_of_names_snoc. simpl length.
  destruct (locate parts h cur) as [c|] eqn:Hpre; [|done].
  intros Hstep Hs.
  destruct (locate_bound _ _ _ _ Hwf Htree Hcur Hpre) as (Hc & _).
  destruct (locate_step _ _ _ _ Hwf Htree Hc Hstep) as (_ & _ & Hp & Hn).
  replace (fuel + (length parts + 1)) with (S (fuel + length parts)) by lia.
  simpl. rewrite Hp, (IH c eq_refl Hs), Hn.
  by rewrite string_app_assoc.
Qed.

(** In a tree the getter returns for every node, with nesting no
    deeper than the index of the node. *)
Lemma fullPath_returns h l :
  tree_store h → l < length h → is_Some (fullPath (S l) h l).
Proof.
  intros Htree. induction l as [l IH] using lt_wf_ind. intros Hl. simpl.
  destruct (RouteTrieNode.parent (h !!! l)) as [p|] eqn:Hp; [|by eexists].
  destruct (Htree l Hl) as (_ & _ & Hpar). pose proof (Hpar p Hp) as Hlt.
  destruct (IH p Hlt ltac:(lia)) as [sp Hsp].
  rewrite (fullPath_more _ l _ _ _ Hsp ltac:(lia)). by eexists.
Qed.

End FullPath.

(** ** Paths and their parts *)

Section Parts.

Implicit Types (s w : string) (c : ascii).

Lemma indexOf_cons c a w :
  Js.indexOf c (String a w) = (-1)%Z ↔ a ≠ c ∧ Js.indexOf c w = (-1)%Z.
Proof.
  simpl. destruct (Ascii.eqb_spec a c) as [->|Hne].
  - split; [done | by intros [? _]].
  - destruct (indexOf_range c w) as [->|Hrange]; [done|].
    destruct (Z.eqb_spec (Js.indexOf c w) (-1)); split; intros; lia.
Qed.

Lemma split_clean c w : Js.indexOf c w = (-1)%Z → Js.split c w = [w].
Proof.
  induction w as [|a w IH]; [done|].
  intros [Hne Hw]%indexOf_cons. simpl.
  destruct (Ascii.eqb_spec a c); [done|]. by rewrite (IH Hw).
Qed.

Lemma split_app c w s :
  Js.indexOf c w = (-1)%Z →
  Js.split c (w +:+ String c s) = w :: Js.split c s.
Proof.
  induction w as [|a w IH]; simpl.
  { intros _. by rewrite Ascii.eqb_refl. }
  intros [Hne Hw]%indexOf_cons.
  destruct (Ascii.eqb_spec a c); [done|]. by rewrite (IH Hw).
Qed.

(** No piece of a split holds the separator. *)
Lemma split_pieces c s : Forall (λ w, Js.indexOf c w = (-1)%Z) (Js.split c s).
Proof.
  induction s as [|a s IH]; simpl; [by repeat constructor|].
  destruct (Ascii.eqb_spec a c) as [->|Hne]; [by constructor|].
  destruct (Js.split c s) as [|w ws];
    [constructor; [by apply indexOf_cons | constructor]|].
  apply Forall_cons in IH as [Hw Hws]. constructor; [|done].
  by apply indexOf_cons.
Qed.

(** The parts of a path are not empty and hold no [/]. *)
Lemma parts_of_pieces path :
  Forall (λ w, Js.truthy w = true ∧ Js.indexOf "/" w = (-1)%Z) (parts_of path).
Proof.
  unfold parts_of. pose proof (split_pieces "/" path) as Hpieces.
  induction Hpieces as [|w ws Hw _ IH]; simpl; [done|].
  destruct (Js.truthy w) eqn:Htruthy; [|done]. by constructor.
Qed.

Lemma parts_of_path_of_names names :
  Forall (λ w, Js.truthy w = true ∧ Js.indexOf "/" w = (-1)%Z) names →
  parts_of (path_of_names names) = names.
Proof.
  induction 1 as [|name names [Htruthy Hclean] _ IH]; [done|].
  change (path_of_names (name :: names))
    with (String "/" (name +:+ path_of_names names)).
  unfold parts_of in *. simpl.
  destruct names as [|name' names].
  - simpl. rewrite string_app_nil_r, (split_clean _ _ Hclean). simpl.
    by rewrite Htruthy.
  - change (path_of_names (name' :: names))
      with (String "/" (name' +:+ path_of_names names)) in *.
    rewrite (split_app _ _ _ Hclean). simpl. rewrite Htruthy.
    f_equal. exact IH.
Qed.

Lemma segment_name_literal parts :
  Forall (λ part, isDynamicPart part = false) parts →
  segment_name <$> parts = parts.
Proof.
  induction 1 as [|part parts Hpart _ IH]; [done|].
  rewrite fmap_cons, IH. unfold segment_name. by rewrite Hpart.
Qed.

(** X6.  The parts of a path are never empty and hold no slash, and
    they are the parts of the path that joins them again, each behind
    one slash: every path has the parts of a path without empty
    segments. *)
Theorem parts_of_normal_form path :
  Forall (λ part, part ≠ "" ∧ Js.indexOf "/" part = (-1)%Z) (parts_of path)
  ∧ parts_of (path_of_names (parts_of path)) = parts_of path.
Proof.
  pose proof (parts_of_pieces path) as Hpieces. split.
  - eapply Forall_impl; [exact Hpieces|].
    intros part [Htruthy Hclean]. split; [|done]. by intros ->.
  - by apply parts_of_path_of_names.
Qed.

End Parts.

(** ** [fullPath] in the tries that insertions make *)

Section FullPathOfRoutes.

Context {T : Type}.
Variable truthy : T → bool.

Implicit Types (routes : list (string * option T)) (l : loc).

(** X7.  In every trie that insertions make of a new one, the getter
    [fullPath] returns for every node, its calls nesting less deep than
    the trie has nodes: the parent links lead to the root without a
    cycle. *)
Theorem fullPath_every_node routes l :
  let t := insert_all truthy routes new_RouteTrie in
  l < length (store t) →
  is_Some (fullPath (length (store t)) (store t) l).
Proof.
  intros t Hl.
  destruct (tree_trie_reachable truthy routes) as (_ & Htree & _).
  destruct (fullPath_returns (store t) l Htree Hl) as [s Hs].
  exists s. apply (fullPath_more _ _ _ _ _ Hs). lia.
Qed.

Lemma fullPath_of_names routes path l fuel :
  let t := insert_all truthy routes new_RouteTrie in
  locate (parts_of path) (store t) (root t) = Some l →
  length (parts_of path) < fuel →
  fullPath fuel (store t) l
    = Some ("/" +:+ path_of_names (segment_name <$> parts_of path)).
Proof.
  intros t Hloc Hfuel.
  destruct (tree_trie_reachable truthy routes)
    as ([Hroot Hwf] & Htree & Hparent & Hpath).
  fold t in Hroot, Hwf, Htree, Hparent, Hpath.
  assert (fullPath 1 (store t) (root t) = Some "/") as Hone.
  { simpl. by rewrite Hparent, Hpath. }
  pose proof (fullPath_locate _ _ _ _ _ _ Hwf Htree Hroot Hloc Hone) as Hfull.
  apply (fullPath_more _ _ _ _ _ Hfull). lia.
Qed.

(** X8.  The full path of the node of a route begins with two slashes,
    the first being the full path of the root, and then names the nodes
    on the way, each behind a slash: a literal part by itself, a dynamic
    part by its capture name, without the colon. *)
Theorem fullPath_of_route routes path l fuel :
  let t := insert_all truthy routes new_RouteTrie in
  locate (parts_of path) (store t) (root t) = Some l →
  length (parts_of path) < fuel →
  fullPath fuel (store t) l
    = Some ("/" +:+ path_of_names (segment_name <$> parts_of path)).
Proof. apply fullPath_of_names. Qed.

(** X9.  For a route of literal parts the full path of its node has the
    parts of the route, and looking the full path up finds the node. *)
Theorem fullPath_find routes path l fp :
  let t := insert_all truthy routes new_RouteTrie in
  Forall (λ part, isDynamicPart part = false) (parts_of path) →
  locate (parts_of path) (store t) (root t) = Some l →
  fullPath (length (store t)) (store t) l = Some fp →
  parts_of fp = parts_of path
  ∧ ∃ params, find fp t = Some (mkFound l params).
Proof.
  intros t Hlit Hloc Hfp.
  destruct (tree_trie_reachable truthy routes)
    as ([Hroot Hwf] & Htree & Hparent & Hpath).
  fold t in Hroot, Hwf, Htree, Hparent, Hpath.
  destruct (locate_depth _ _ _ _ Hwf Htree Hroot Hloc) as [Hl Hdepth].
  pose proof (fullPath_of_names routes path l (length (store t)) Hloc
                ltac:(lia)) as Hfull.
  fold t in Hfull. rewrite Hfull in Hfp. injection Hfp as <-.
  rewrite (segment_name_literal _ Hlit).
  assert (parts_of ("/" +:+ path_of_names (parts_of path)) = parts_of path)
    as Hparts.
  { change (parts_of ("/" +:+ ?s)) with (parts_of s).
    apply parts_of_path_of_names, parts_of_pieces. }
  split; [done|].
  apply find_located; [done|]. by rewrite Hparts.
Qed.

End FullPathOfRoutes.

(** The node of [/posts/:id], the third of its trie. *)
Lemma fullPath_every_node_witness :
  is_Some (fullPath 3 (store posts_id_trie) 2).
Proof.
  exact (fullPath_every_node handler_truthy [("/posts/:id", Some "first")] 2
           ltac:(vm_compute; lia)).
Defined.

(** Its full path names the dynamic part [id], after two slashes. *)
Lemma fullPath_of_route_witness :
  fullPath 3 (store posts_id_trie) 2 = Some "//posts/id".
Proof.
  exact (fullPath_of_route handler_truthy [("/posts/:id", Some "first")]
           "/posts/:id" 2 3 ltac:(by vm_compute) ltac:(vm_compute; lia)).
Defined.

(** The node of [/a/b] is found again under its full path [//a/b]. *)
Lemma fullPath_find_witness :
  parts_of "//a/b" = parts_of "/a/b"
  ∧ ∃ params, find "//a/b" a_b_trie = Some (mkFound 2 params).
Proof.
  exact (fullPath_find handler_truthy [("/a/b", Some "first")] "/a/b" 2 "//a/b"
           ltac:(apply (bool_decide_unpack _); by vm_compute)
           ltac:(by vm_compute) ltac:(by vm_compute)).
Defined.

(** ** What [find] finds was registered *)

Section Sound.

Context {T : Type}.
Variable truthy : T → bool.

Abbreviation nodeS := (RouteTrieNode.t T).
Implicit Types (h : list nodeS) (l cur d c x : loc).










End Sound.

Section RouterSound.

Context {RouteHandler : Type}.

Implicit Types (r : Router.t RouteHandler)
  (routes : list (string * string * RouteHandler)).






End RouterSound.


(** ** What registrations leave as it was *)

Section Growth.

Context {T : Type}.
Variable truthy : T → bool.

Abbreviation nodeG := (RouteTrieNode.t T).
Implicit Types (h : list nodeG) (l cur : loc).

(** The loop of [insert] makes at most one node for each part. *)
Lemma insert_walk_length path parts h cur :
  length h ≤ length (insert_walk path parts h cur).1
  ∧ length (insert_walk path parts h cur).1 ≤ length h + length parts.
Proof.
  revert h cur. induction parts as [|part rest IH]; intros h cur.
  { simpl. lia. }
  rewrite insert_walk_cons. simpl length.
  assert (∀ f name,
            length h ≤ length (insert_walk path rest (link f name h cur)
                                 (length h)).1
            ∧ length (insert_walk path rest (link f name h cur) (length h)).1
              ≤ length h + S (length rest)) as Hnew.
  { intros f name. specialize (IH (link f name h cur) (length h)).
    rewrite length_link in IH. lia. }
  destruct (isDynamicPart part).
  - destruct (RouteTrieNode.dynamicSegment (h !!! cur)) as [d|]; [|apply Hnew].
    case_bool_decide; [simpl; lia|]. specialize (IH h d). lia.
  - destruct (RouteTrieNode.children (h !!! cur) !! part) as [c|]; [|apply Hnew].
    specialize (IH h c). lia.
Qed.

(** From a node just made it makes exactly one node for each part. *)
Lemma insert_walk_blank_length path parts h cur :
  cur < length h → blank (h !!! cur) →
  length (insert_walk path parts h cur).1 = length h + length parts.
Proof.
  revert h cur. induction parts as [|part rest IH]; intros h cur Hcur Hb.
  { simpl. lia. }
  destruct Hb as (Hch & Hdyn & Hval).
  rewrite insert_walk_cons, Hdyn, Hch, lookup_empty. simpl length.
  destruct (isDynamicPart part);
    (rewrite IH; [rewrite length_link; lia | rewrite length_link; lia|];
     rewrite link_lookup_new by done; by repeat split).
Qed.

(** X11.  An insertion never removes a node and makes at most one node
    for each part of the path; into a new trie it makes exactly one for
    each part.  The root stays the root. *)
Theorem insert_size path value (t : RouteTrie T) :
  length (store t) ≤ length (store (insert truthy path value t).1)
  ∧ length (store (insert truthy path value t).1)
    ≤ length (store t) + length (parts_of path)
  ∧ root (insert truthy path value t).1 = root t
  ∧ length (store (insert truthy path value new_RouteTrie).1)
    = 1 + length (parts_of path).
Proof.
  assert (∀ t0 : RouteTrie T,
            store (insert truthy path value t0).1
              = (insert_walk (slashed path) (parts_of path) (store t0)
                   (root t0)).1
            ∨ ∃ l, store (insert truthy path value t0).1
                   = alter (RouteTrieNode.set_value value) l
                       (insert_walk (slashed path) (parts_of path) (store t0)
                          (root t0)).1) as Hstore.
  { intros t0. rewrite insert_unfold, parts_of_slashed.
    destruct (insert_walk _ _ _ _) as [h [e|l]]; simpl; [by left|].
    destruct (truthy_value _ _); simpl; [by left | right; by exists l]. }
  assert (∀ t0 : RouteTrie T,
            length (store (insert truthy path value t0).1)
            = length (insert_walk (slashed path) (parts_of path) (store t0)
                        (root t0)).1) as Hlen.
  { intros t0. destruct (Hstore t0) as [->|[l ->]]; [done|].
    by rewrite length_alter. }
  rewrite !Hlen.
  pose proof (insert_walk_length (slashed path) (parts_of path) (store t) (root t)).
  split; [lia|]. split; [lia|]. split.
  - clear. rewrite insert_unfold.
    destruct (insert_walk _ _ _ _) as [h [e|l]]; simpl; [done|].
    by destruct (truthy_value _ _).
  - rewrite insert_walk_blank_length; [done | simpl; lia | by repeat split].
Qed.

End Growth.

Section RouterGrowth.

Context {RouteHandler : Type}.

Implicit Types (r : Router.t RouteHandler).

(** X12.  Registrations only add.  Whatever is registered on a
    well-formed router, every trie it had is still there under its
    method, with the same root and no node less; and every node keeps
    its path, its literal children, its dynamic child together with the
    capture name of that child, and its handler once it has one. *)
Theorem registrations_only_add r later M (t : RouteTrie RouteHandler) :
  wf_router r →
  Router.routeMethodMap r !! M = Some t →
  ∃ t', Router.routeMethodMap (map_all later r) !! M = Some t'
    ∧ root t' = root t
    ∧ length (store t) ≤ length (store t')
    ∧ ∀ l, l < length (store t) →
        RouteTrieNode.path (store t' !!! l) = RouteTrieNode.path (store t !!! l)
        ∧ RouteTrieNode.children (store t !!! l)
          ⊆ RouteTrieNode.children (store t' !!! l)
        ∧ (∀ d, RouteTrieNode.dynamicSegment (store t !!! l) = Some d →
             RouteTrieNode.dynamicSegment (store t' !!! l) = Some d
             ∧ RouteTrieNode.path (store t' !!! d)
               = RouteTrieNode.path (store t !!! d))
        ∧ (∀ v, RouteTrieNode.value (store t !!! l) = Some v →
             RouteTrieNode.value (store t' !!! l) = Some v).
Proof.
  intros Hwf Hm.
  destruct (map_all_spec later r Hwf) as [_ Hg].
  destruct (Hg M t Hm) as (t' & Hm' & Hroot & Hlen & Hnodes).
  exists t'. split; [done|]. split; [done|]. split; [done|].
  intros l Hl. destruct (Hnodes l Hl) as (Hpath & Hch & Hdyn & Hval).
  split; [done|]. split; [done|]. split.
  - intros d Hd. split; [by apply Hdyn|].
    destruct Hwf as [_ Hwf]. destruct (Hwf M t Hm) as [_ Hstore].
    pose proof (wf_store_dynamic _ l d Hstore Hl Hd) as Hdlt.
    by destruct (Hnodes d Hdlt) as (-> & _).
  - intros v Hv. rewrite Hval; [done|]. by rewrite Hv.
Qed.

End RouterGrowth.

(** The trie of [GET] with [/a/b], after [/a/c] is registered too. *)
Lemma registrations_only_add_witness :
  ∃ t', Router.routeMethodMap
          (map_all [("GET", "/a/c", "second")] a_b_router) !! "GET" = Some t'
    ∧ root t' = root a_b_trie
    ∧ length (store a_b_trie) ≤ length (store t')
    ∧ ∀ l, l < length (store a_b_trie) →
        RouteTrieNode.path (store t' !!! l)
          = RouteTrieNode.path (store a_b_trie !!! l)
        ∧ RouteTrieNode.children (store a_b_trie !!! l)
          ⊆ RouteTrieNode.children (store t' !!! l)
        ∧ (∀ d, RouteTrieNode.dynamicSegment (store a_b_trie !!! l) = Some d →
             RouteTrieNode.dynamicSegment (store t' !!! l) = Some d
             ∧ RouteTrieNode.path (store t' !!! d)
               = RouteTrieNode.path (store a_b_trie !!! d))
        ∧ (∀ v, RouteTrieNode.value (store a_b_trie !!! l) = Some v →
             RouteTrieNode.value (store t' !!! l) = Some v).
Proof.
  exact (registrations_only_add a_b_router [("GET", "/a/c", "second")] "GET"
           a_b_trie
           ltac:(apply (bool_decide_unpack _); by vm_compute)
           ltac:(by vm_compute)).
Defined.

(** ** One round of the server loop *)

Section Dispatch.

Context {RouteHandler : Type}.

Implicit Types (r router : Router.t RouteHandler).

(** A url without ['?'] is its own path part. *)
Lemma splitQueryParamPart_plain path :
  Js.indexOf "?" path = (-1)%Z →
  Parse.splitQueryParamPart path = Parse.mk path None.
Proof. intros Hq. unfold Parse.splitQueryParamPart. by rewrite Hq. Qed.


(** X13.  The query string takes no part in routing.  A request for
    [path?q], where [path] has no ['?'], is handed to the handler that
    the request for [path] is handed to, with the same path parameters,
    and fails as that one fails; only [queryParams] differs, made from
    [q] for the one and from nothing for the other. *)
Theorem dispatch_ignores_query method path q router :
  Js.indexOf "?" path = (-1)%Z →
  SimpleServer.dispatch method (path +:+ "?" +:+ q) router
    = match SimpleServer.dispatch method path router with
      | Return d =>
          Return (SimpleServer.mkDispatch (SimpleServer.handler d)
                    (SimpleServer.mkParams (Some q)
                       (SimpleServer.pathParams (SimpleServer.params d))))
      | Throw e => Throw e
      end
  ∧ ∀ d, SimpleServer.dispatch method path router = Return d →
         SimpleServer.queryParams (SimpleServer.params d) = None.
Proof.
  intros Hq. unfold SimpleServer.dispatch.
  pose proof (splitQueryParamPart_found path q Hq) as Hcut.
  change (path +:+ String "?" q) with (path +:+ "?" +:+ q) in Hcut.
  rewrite Hcut, (splitQueryParamPart_plain path Hq). simpl.
  destruct (Router.find method path router) as [[[found pathParams]|]|e];
    simpl; (split; [done|]); by intros d [= <-].
Qed.



End Dispatch.

(** [GET /posts/42?page=2], and the same without the query string. *)
Lemma dispatch_ignores_query_witness :
  SimpleServer.dispatch "GET" "/posts/42?page=2" posts_show_router
    = Return (SimpleServer.mkDispatch (Some "show")
        (SimpleServer.mkParams (Some "page=2") {["post_id" := "42"]})).
Proof.
  exact (proj1 (dispatch_ignores_query "GET" "/posts/42" "page=2"
                  posts_show_router ltac:(by vm_compute))).
Defined.


